(** * chat-backend: message delivery and presence synchronisation

    A shallow embedding of [src/routes/messageRoutes.js], the socket handlers
    of [src/server.js], the statistics and account routes of
    [src/routes/userRoutes.js] and the two schemas of [src/models], followed
    by the properties of the conversation/message manager, the presence
    registry and the realtime relay.

    Conventions of the embedding.
    - User identities are the strings the routes and the socket handshake
      carry (the hexadecimal form of a user's ObjectId); socket ids are
      strings.  A string is held as the bytes of its UTF-8 encoding.  Identifiers generated by the store (the [_id] of a
      conversation or of a message) are drawn from a counter kept in the
      store, and a request parameter naming one is taken after its cast to
      ObjectId.
    - The database is threaded explicitly through the handlers: a handler
      runs to completion before the next one starts.  Store calls do not
      throw, so the [catch] blocks of the routes (status 500, reached when
      the ODM cannot cast an identifier or the database is down) have no
      counterpart.
    - [new Date()] and the [Date.now] default are the [now] argument of the
      handler.
    - The schemas' [timestamps] option makes the ODM keep [createdAt] and
      [updatedAt]; those two bookkeeping paths are not part of the records
      below, which carry exactly the paths the schemas declare. *)

From Stdlib Require Import Ascii String.
From stdpp Require Import gmap strings list fin_maps sorting.

Local Open Scope string_scope.
Local Open Scope N_scope.
Local Open Scope list_scope.

(** ** JavaScript strings and objects *)

Module JS.

(** A string is held as the bytes of its UTF-8 encoding, which is how a
    string literal of this file is read: a character is one to four bytes
    long, and two strings are equal exactly when their encodings are.

    The code points [String.prototype.trim] strips from both ends are those
    of the WhiteSpace and LineTerminator productions of ECMAScript: TAB, LF,
    VT, FF, CR, SP, NBSP, U+1680, U+2000 to U+200A, U+2028, U+2029, U+202F,
    U+205F, U+3000 and U+FEFF. *)
Definition white_space_code_points : list N :=
  [0x9; 0xA; 0xB; 0xC; 0xD; 0x20; 0xA0; 0x1680;
   0x2000; 0x2001; 0x2002; 0x2003; 0x2004; 0x2005; 0x2006; 0x2007;
   0x2008; 0x2009; 0x200A; 0x2028; 0x2029; 0x202F; 0x205F; 0x3000;
   0xFEFF].

(** The UTF-8 encoding of a code point below 0x10000. *)
Definition utf8 (cp : N) : string :=
  if cp <? 0x80 then String (ascii_of_N cp) ""
  else if cp <? 0x800 then
    String (ascii_of_N (0xC0 + cp / 0x40))
      (String (ascii_of_N (0x80 + cp mod 0x40)) "")
  else
    String (ascii_of_N (0xE0 + cp / 0x1000))
      (String (ascii_of_N (0x80 + (cp / 0x40) mod 0x40))
         (String (ascii_of_N (0x80 + cp mod 0x40)) "")).

Definition white_space : list string :=
  Eval vm_compute in utf8 <$> white_space_code_points.

(** [w] is one white-space character. *)
Definition is_white_space (w : string) : bool :=
  bool_decide (w ∈ white_space).

(** A white-space character is one, two or three bytes long: the start of
    the string is looked at with each of these lengths. *)
Fixpoint trimStart (s : string) : string :=
  match s with
  | EmptyString => s
  | String a s1 =>
      if is_white_space (String a "") then trimStart s1 else
      match s1 with
      | EmptyString => s
      | String b s2 =>
          if is_white_space (String a (String b "")) then trimStart s2 else
          match s2 with
          | EmptyString => s
          | String c s3 =>
              if is_white_space (String a (String b (String c "")))
              then trimStart s3 else s
          end
      end
  end.

(** The end is stripped from the right: what is kept of [c] followed by
    [s'] is [c] followed by what is kept of [s'], unless that is one
    white-space character. *)
Fixpoint trimEnd (s : string) : string :=
  match s with
  | EmptyString => EmptyString
  | String c s' =>
      let t := String c (trimEnd s') in
      if is_white_space t then EmptyString else t
  end.

Definition trim (s : string) : string := trimEnd (trimStart s).

(** The strings made of white-space characters only. *)
Inductive blank : string → Prop :=
  | blank_empty : blank ""
  | blank_more w s : is_white_space w = true → blank s → blank (w +:+ s).

(** Truthiness of a string value: every string but the empty one. *)
Definition truthy (s : string) : bool :=
  match s with EmptyString => false | String _ _ => true end.

(** A plain object used as a dictionary: own properties in insertion
    order, each key once.  (Keys here are user ids, 24-digit hexadecimal
    strings, which are never array indices; properties inherited from
    [Object.prototype] are not modelled.) *)
Definition object (V : Type) : Type := list (string * V).

Section Object.
Context {V : Type}.

(** [o[k]] *)
Fixpoint get (o : object V) (k : string) : option V :=
  match o with
  | [] => None
  | (k', v) :: o' => if decide (k' = k) then Some v else get o' k
  end.

(** [o[k] = v] *)
Fixpoint put (o : object V) (k : string) (v : V) : object V :=
  match o with
  | [] => [(k, v)]
  | (k', v') :: o' =>
      if decide (k' = k) then (k', v) :: o' else (k', v') :: put o' k v
  end.

(** [delete o[k]] *)
Fixpoint remove (o : object V) (k : string) : object V :=
  match o with
  | [] => []
  | (k', v') :: o' =>
      if decide (k' = k) then o' else (k', v') :: remove o' k
  end.

(** [Object.keys(o)] and [Object.entries(o)] *)
Definition keys (o : object V) : list string := o.*1.
Definition entries (o : object V) : list (string * V) := o.

(** Own property names are pairwise distinct. *)
Definition wf (o : object V) : Prop := NoDup (keys o).
End Object.

End JS.

(** ** Data model ([src/models]) *)

Abbreviation UserId := string (only parsing).
Abbreviation SocketId := string (only parsing).
Abbreviation ObjectId := N (only parsing).
Abbreviation Time := N (only parsing).

(** The projection [select: "username fullName profilePic"] of a user. *)
Record UserProjection := mkUserProjection {
  username : string;
  fullName : string;
  profilePic : string
}.

Inductive MessageType := text | image | file.

Record Message := mkMessage {
  msg_id : ObjectId;
  senderId : UserId;
  receiverId : UserId;
  message : string;
  conversationId : ObjectId;
  isRead : bool;
  messageType : MessageType
}.

Record Conversation := mkConversation {
  conv_id : ObjectId;
  participants : list UserId;
  messages : list ObjectId;
  lastMessage : option ObjectId;
  lastMessageTime : Time;
  isGroup : bool;
  groupName : option string;
  groupAdmin : option UserId
}.

(** The three collections.  Conversations are kept in natural (insertion)
    order, the order in which an unsorted [findOne] sees them; messages are
    only ever reached through their [_id] or in bulk. *)
Record Store := mkStore {
  userDocs : gmap string UserProjection;
  conversationDocs : list Conversation;
  messageDocs : gmap N Message;
  nextId : ObjectId
}.

Definition empty_store : Store :=
  {| userDocs := ∅; conversationDocs := []; messageDocs := ∅; nextId := 0 |}.

#[global] Instance MessageType_eq_dec : EqDecision MessageType.
Proof. solve_decision. Defined.
#[global] Instance UserProjection_eq_dec : EqDecision UserProjection.
Proof. solve_decision. Defined.
#[global] Instance Message_eq_dec : EqDecision Message.
Proof. solve_decision. Defined.
#[global] Instance Conversation_eq_dec : EqDecision Conversation.
Proof. solve_decision. Defined.

(** ** The store interface (the ODM calls the routes make) *)

Definition DB (A : Type) : Type := Store → A * Store.

Definition db_ret {A} (a : A) : DB A := λ st, (a, st).
Definition db_bind {A B} (c : DB A) (k : A → DB B) : DB B :=
  λ st, let '(a, st') := c st in k a st'.

Notation "'let*' x ':=' c 'in' k" := (db_bind c (λ x, k))
  (at level 10, x name, c at level 100, k at level 200).

Definition newObjectId : DB ObjectId := λ st,
  (nextId st,
   {| userDocs := userDocs st; conversationDocs := conversationDocs st;
      messageDocs := messageDocs st; nextId := N.succ (nextId st) |}).

Definition set_conversations (f : list Conversation → list Conversation)
  : DB unit := λ st,
  (tt,
   {| userDocs := userDocs st; conversationDocs := f (conversationDocs st);
      messageDocs := messageDocs st; nextId := nextId st |}).

Definition set_messages (f : gmap N Message → gmap N Message) : DB unit :=
  λ st,
  (tt,
   {| userDocs := userDocs st; conversationDocs := conversationDocs st;
      messageDocs := f (messageDocs st); nextId := nextId st |}).

(** [{ participants: { $all: wanted } }]: every wanted id occurs in the
    array. *)
Definition matches_all (wanted : list UserId) (c : Conversation) : bool :=
  forallb (λ u, bool_decide (u ∈ participants c)) wanted.

(** [Conversation.findOne({ participants: { $all: wanted } })] *)
Definition Conversation_findOne (wanted : list UserId)
  : DB (option Conversation) := λ st,
  (find (matches_all wanted) (conversationDocs st), st).

(** [Conversation.create({ participants })], the other paths at their
    schema defaults. *)
Definition Conversation_create (ps : list UserId) (now : Time)
  : DB Conversation :=
  let* id := newObjectId in
  let c := {| conv_id := id; participants := ps; messages := [];
              lastMessage := None; lastMessageTime := now; isGroup := false;
              groupName := None; groupAdmin := None |} in
  let* _ := set_conversations (λ cs, cs ++ [c]) in
  db_ret c.

(** [conversation.save()] of a document that is already stored: the stored
    document of that [_id] takes the values of the local one. *)
Definition replace_conversation (c : Conversation)
    (cs : list Conversation) : list Conversation :=
  (λ d, if decide (conv_id d = conv_id c) then c else d) <$> cs.

Definition Conversation_save (c : Conversation) : DB unit :=
  set_conversations (replace_conversation c).

(** The local update of the send route:
    [conversation.messages.push(id); conversation.lastMessage = id;
     conversation.lastMessageTime = new Date()]. *)
Definition with_new_message (c : Conversation) (id : ObjectId) (now : Time)
  : Conversation :=
  {| conv_id := conv_id c; participants := participants c;
     messages := messages c ++ [id]; lastMessage := Some id;
     lastMessageTime := now; isGroup := isGroup c;
     groupName := groupName c; groupAdmin := groupAdmin c |}.

(** [Conversation.findByIdAndUpdate(id, { $pull: { messages: mid } })] *)
Definition pull_message (mid : ObjectId) (c : Conversation) : Conversation :=
  {| conv_id := conv_id c; participants := participants c;
     messages := filter (λ x, x ≠ mid) (messages c);
     lastMessage := lastMessage c; lastMessageTime := lastMessageTime c;
     isGroup := isGroup c; groupName := groupName c;
     groupAdmin := groupAdmin c |}.

Definition pull_from (id mid : ObjectId) (cs : list Conversation)
  : list Conversation :=
  (λ d, if decide (conv_id d = id) then pull_message mid d else d) <$> cs.

Definition Conversation_findByIdAndUpdate_pull (id mid : ObjectId)
  : DB unit :=
  set_conversations (pull_from id mid).

(** [new Message({ senderId, receiverId, message, conversationId })] *)
Definition Message_new (s r : UserId) (txt : string) (cid : ObjectId)
  : DB Message :=
  let* id := newObjectId in
  db_ret {| msg_id := id; senderId := s; receiverId := r; message := txt;
            conversationId := cid; isRead := false; messageType := text |}.

(** [newMessage.save()] *)
Definition Message_save (m : Message) : DB unit :=
  set_messages (λ ms, <[msg_id m := m]> ms).

(** [Message.findById(id)] *)
Definition Message_findById (id : ObjectId) : DB (option Message) :=
  λ st, (messageDocs st !! id, st).

(** [Message.findByIdAndDelete(id)] *)
Definition Message_findByIdAndDelete (id : ObjectId) : DB unit :=
  set_messages (λ ms, delete id ms).

(** The update document [{ isRead: true }] applied to one message. *)
Definition mark_read (m : Message) : Message :=
  {| msg_id := msg_id m; senderId := senderId m; receiverId := receiverId m;
     message := message m; conversationId := conversationId m;
     isRead := true; messageType := messageType m |}.

(** [Message.updateMany(filter, { isRead: true })] *)
Definition read_where (filter : Message → bool) (m : Message) : Message :=
  if filter m then mark_read m else m.

Definition Message_updateMany_read (filter : Message → bool) : DB unit :=
  set_messages (λ ms, read_where filter <$> ms).

(** Populated message: the document with [senderId] and [receiverId]
    replaced by the users' projections ([None] for a user that is gone). *)
Record PopulatedMessage := mkPopulated {
  doc : Message;
  sender : option UserProjection;
  receiver : option UserProjection
}.

Definition populate_message (st : Store) (m : Message) : PopulatedMessage :=
  {| doc := m; sender := userDocs st !! senderId m;
     receiver := userDocs st !! receiverId m |}.

(** [newMessage.populate([{ path: "senderId", ... }, { path: "receiverId",
    ... }])] *)
Definition Message_populate (m : Message) : DB PopulatedMessage :=
  λ st, (populate_message st m, st).

(** [.populate({ path: "messages", populate: ... })]: the ids of the array
    resolved in order, ids without a document dropped. *)
Definition populate_messages (ids : list ObjectId)
  : DB (list PopulatedMessage) := λ st,
  (omap (λ id, populate_message st <$> messageDocs st !! id) ids, st).

(** ** Presence registry and realtime relay ([src/server.js]) *)

Inductive Payload :=
  | OnlineUsers (ids : list UserId)
  | Typing (from_user : string) (typing_flag : bool)
  | MessageRead (message_ref : string) (reader : string)
  | NewMessage (m : PopulatedMessage).

(** What a handler hands to the socket layer:
    [io.emit(ev, p)] (every connection), [io.to(room).emit(ev, p)], and
    [socket.to(room).emit(ev, p)] (the room, the emitting socket apart). *)
Inductive Emit :=
  | io_emit (event : string) (p : Payload)
  | io_to_emit (room : SocketId) (event : string) (p : Payload)
  | socket_to_emit (socket : SocketId) (room : SocketId) (event : string)
      (p : Payload).

(** [const userSocketMap = {}; // {userId: socketId}] *)
Abbreviation Registry := (JS.object string) (only parsing).

Definition getReceiverSocketId (userSocketMap : Registry) (rid : UserId)
  : option SocketId := JS.get userSocketMap rid.

(** [if (socketId) { emit }]: nothing for [undefined] and for a falsy id. *)
Definition emit_if (socketId : option SocketId) (e : SocketId → Emit)
  : list Emit :=
  match socketId with
  | Some sid => if JS.truthy sid then [e sid] else []
  | None => []
  end.

Record TypingData := mkTypingData {
  typing_senderId : string;
  typing_receiverId : string;
  typing_isTyping : bool
}.

Record MessageReadData := mkMessageReadData {
  read_senderId : string;
  read_messageId : string;
  read_readBy : string
}.

(** [io.on("connection", socket => ...)], up to the first broadcast;
    [query_userId] is [socket.handshake.query.userId]. *)
Definition on_connection (socket_id : SocketId) (query_userId : option string)
    (userSocketMap : Registry) : Registry * list Emit :=
  let userSocketMap' :=
    match query_userId with
    | Some userId =>
        if JS.truthy userId && bool_decide (userId ≠ "undefined")
        then JS.put userSocketMap userId socket_id
        else userSocketMap
    | None => userSocketMap
    end in
  (userSocketMap',
   [io_emit "getOnlineUsers" (OnlineUsers (JS.keys userSocketMap'))]).

(** [socket.on("typing", data => ...)] *)
Definition on_typing (socket_id : SocketId) (data : TypingData)
    (userSocketMap : Registry) : list Emit :=
  emit_if (JS.get userSocketMap (typing_receiverId data))
    (λ receiverSocketId,
       socket_to_emit socket_id receiverSocketId "typing"
         (Typing (typing_senderId data) (typing_isTyping data))).

(** [socket.on("messageRead", data => ...)] *)
Definition on_messageRead (socket_id : SocketId) (data : MessageReadData)
    (userSocketMap : Registry) : list Emit :=
  emit_if (JS.get userSocketMap (read_senderId data))
    (λ senderSocketId,
       socket_to_emit socket_id senderSocketId "messageRead"
         (MessageRead (read_messageId data) (read_readBy data))).

(** [socket.on("disconnect", ...)]: the first entry holding this socket's id
    is deleted, then the key list is broadcast. *)
Definition on_disconnect (socket_id : SocketId) (userSocketMap : Registry)
  : Registry * list Emit :=
  let userSocketMap' :=
    match find (λ entry, bool_decide (entry.2 = socket_id))
            (JS.entries userSocketMap) with
    | Some (userId, _) => JS.remove userSocketMap userId
    | None => userSocketMap
    end in
  (userSocketMap',
   [io_emit "getOnlineUsers" (OnlineUsers (JS.keys userSocketMap'))]).

(** ** Message routes ([src/routes/messageRoutes.js]) *)

Inductive Json :=
  | JsonMessages (ms : list PopulatedMessage)
  | JsonMessage (m : PopulatedMessage)
  | JsonError (error : string)
  | JsonInfo (info : string).

Record Response := mkResponse { status : N; json : Json }.

(** The filter [{ conversationId, senderId, receiverId, isRead: false }] of
    the thread route and the filter
    [{ conversationId, receiverId, isRead: false }] of the read route. *)
Definition thread_unread (cid : ObjectId) (from to : UserId) (m : Message)
  : bool :=
  bool_decide (conversationId m = cid)
  && bool_decide (senderId m = from)
  && bool_decide (receiverId m = to)
  && bool_decide (isRead m = false).

Definition conversation_unread (cid : ObjectId) (to : UserId) (m : Message)
  : bool :=
  bool_decide (conversationId m = cid)
  && bool_decide (receiverId m = to)
  && bool_decide (isRead m = false).

(** [GET /api/message/:id]; [userId] is [req.user.userId]. *)
Definition getMessages (userId userToChatId : UserId) : DB Response :=
  let* conversation := Conversation_findOne [userId; userToChatId] in
  match conversation with
  | None => db_ret (mkResponse 200 (JsonMessages []))
  | Some conversation =>
      let* populated := populate_messages (messages conversation) in
      let* _ :=
        Message_updateMany_read
          (thread_unread (conv_id conversation) userToChatId userId) in
      db_ret (mkResponse 200 (JsonMessages populated))
  end.

(** [!message || message.trim() === ""] for a body that is absent or a
    string. *)
Definition content_missing (body : option string) : bool :=
  match body with
  | None => true
  | Some message => negb (JS.truthy message) || bool_decide (JS.trim message = "")
  end.

(** [POST /api/message/send/:id] *)
Definition sendMessage (userSocketMap : Registry) (userId rid : UserId)
    (body : option string) (now : Time) : DB (Response * list Emit) :=
  match body with
  | Some message_text =>
      if content_missing body
      then db_ret (mkResponse 400 (JsonError "Message content is required"),
                   [])
      else
        let* found := Conversation_findOne [userId; rid] in
        let* conversation :=
          match found with
          | Some c => db_ret c
          | None => Conversation_create [userId; rid] now
          end in
        let* newMessage :=
          Message_new userId rid (JS.trim message_text)
            (conv_id conversation) in
        let* _ := Message_save newMessage in
        let* _ :=
          Conversation_save
            (with_new_message conversation (msg_id newMessage) now) in
        let* populated := Message_populate newMessage in
        db_ret (mkResponse 201 (JsonMessage populated),
                emit_if (getReceiverSocketId userSocketMap rid)
                  (λ receiverSocketId,
                     io_to_emit receiverSocketId "newMessage"
                       (NewMessage populated)))
  | None =>
      db_ret (mkResponse 400 (JsonError "Message content is required"), [])
  end.

(** [DELETE /api/message/:messageId] *)
Definition deleteMessage (userId : UserId) (messageId : ObjectId)
  : DB Response :=
  let* found := Message_findById messageId in
  match found with
  | None => db_ret (mkResponse 404 (JsonError "Message not found"))
  | Some m =>
      if bool_decide (senderId m ≠ userId)
      then db_ret (mkResponse 403
                     (JsonError "Not authorized to delete this message"))
      else
        let* _ := Message_findByIdAndDelete messageId in
        let* _ :=
          Conversation_findByIdAndUpdate_pull (conversationId m) messageId in
        db_ret (mkResponse 200 (JsonInfo "Message deleted successfully"))
  end.

(** [PUT /api/message/read/:conversationId] *)
Definition markRead (userId : UserId) (cid : ObjectId) : DB Response :=
  let* _ := Message_updateMany_read (conversation_unread cid userId) in
  db_ret (mkResponse 200 (JsonInfo "Messages marked as read")).

(** ** The server as a transition system *)

Record World := mkWorld {
  db : Store;
  userSocketMap : JS.object string
}.

Inductive Event :=
  | GET_messages (userId userToChatId : UserId)
  | POST_send (userId rid : UserId) (body : option string) (now : Time)
  | DELETE_message (userId : UserId) (messageId : ObjectId)
  | PUT_read (userId : UserId) (cid : ObjectId)
  | connection (socket_id : SocketId) (query_userId : option string)
  | typing (socket_id : SocketId) (data : TypingData)
  | messageRead (socket_id : SocketId) (data : MessageReadData)
  | disconnect (socket_id : SocketId).

Record Outcome := mkOutcome {
  response : option Response;
  emitted : list Emit
}.

Definition step (w : World) (e : Event) : World * Outcome :=
  match e with
  | GET_messages u o =>
      let '(r, st) := getMessages u o (db w) in
      (mkWorld st (userSocketMap w), mkOutcome (Some r) [])
  | POST_send u r body now =>
      let '((res, es), st) := sendMessage (userSocketMap w) u r body now (db w) in
      (mkWorld st (userSocketMap w), mkOutcome (Some res) es)
  | DELETE_message u mid =>
      let '(r, st) := deleteMessage u mid (db w) in
      (mkWorld st (userSocketMap w), mkOutcome (Some r) [])
  | PUT_read u cid =>
      let '(r, st) := markRead u cid (db w) in
      (mkWorld st (userSocketMap w), mkOutcome (Some r) [])
  | connection sid q =>
      let '(reg, es) := on_connection sid q (userSocketMap w) in
      (mkWorld (db w) reg, mkOutcome None es)
  | typing sid data =>
      (w, mkOutcome None (on_typing sid data (userSocketMap w)))
  | messageRead sid data =>
      (w, mkOutcome None (on_messageRead sid data (userSocketMap w)))
  | disconnect sid =>
      let '(reg, es) := on_disconnect sid (userSocketMap w) in
      (mkWorld (db w) reg, mkOutcome None es)
  end.

Fixpoint run (w : World) (es : list Event) : World * list Outcome :=
  match es with
  | [] => (w, [])
  | e :: es' =>
      let '(w1, o) := step w e in
      let '(w2, os) := run w1 es' in
      (w2, o :: os)
  end.

Definition initial_world : World := mkWorld empty_store [].

(** ** The conversation list route ([GET /api/message]) *)

(** A populated participant: the user's [_id] with the paths of
    [select: "username fullName profilePic"]. *)
Record PopulatedUser := mkPopulatedUser {
  user_id : UserId;
  profile : UserProjection
}.

(** A populated [lastMessage], under
    [select: "message createdAt senderId isRead"]. *)
Record LastMessage := mkLastMessage {
  last_id : ObjectId;
  last_message : string;
  last_senderId : UserId;
  last_isRead : bool
}.

(** One element of the answer of the list route. *)
Record ConversationSummary := mkSummary {
  summary_id : ObjectId;
  participant : option PopulatedUser;
  summary_lastMessage : option LastMessage;
  summary_lastMessageTime : Time
}.

Record ListResponse := mkListResponse {
  list_status : N;
  list_json : list ConversationSummary
}.

(** [.sort({ lastMessageTime: -1 })]: most recent first.  The order of two
    conversations of equal time is the store's choice. *)
Definition newer_first (c d : Conversation) : Prop :=
  lastMessageTime d ≤ lastMessageTime c.

#[global] Instance newer_first_dec : RelDecision newer_first.
Proof. intros c d. unfold newer_first. apply _. Defined.

(** [Conversation.find({ participants: userId })
      .sort({ lastMessageTime: -1 })] *)
Definition Conversation_find_sorted (userId : UserId)
  : DB (list Conversation) := λ st,
  (merge_sort newer_first
     (filter (λ c, userId ∈ participants c) (conversationDocs st)), st).

(** [.populate({ path: "participants", select: ... })]: the ids resolved in
    order, ids without a user document dropped. *)
Definition populate_participants (st : Store) (ids : list UserId)
  : list PopulatedUser :=
  omap (λ id, mkPopulatedUser id <$> userDocs st !! id) ids.

(** [.populate({ path: "lastMessage", select: ... })]: [null] when the id
    names no message. *)
Definition populate_lastMessage (st : Store) (ref : option ObjectId)
  : option LastMessage :=
  id ← ref;
  (λ m, mkLastMessage (msg_id m) (message m) (senderId m) (isRead m))
  <$> messageDocs st !! id.

(** The body of [conversations.map(...)]: [participants.find] returns the
    first populated participant whose id is not the caller's. *)
Definition format_conversation (st : Store) (userId : UserId)
    (c : Conversation) : ConversationSummary :=
  {| summary_id := conv_id c;
     participant :=
       find (λ p, bool_decide (user_id p ≠ userId))
         (populate_participants st (participants c));
     summary_lastMessage := populate_lastMessage st (lastMessage c);
     summary_lastMessageTime := lastMessageTime c |}.

(** [GET /api/message] *)
Definition getConversations (userId : UserId) : DB ListResponse :=
  let* conversations := Conversation_find_sorted userId in
  let* formatted :=
    (λ st, (format_conversation st userId <$> conversations, st)) in
  db_ret (mkListResponse 200 formatted).

(** ** User routes that read or leave behind messages
       ([src/routes/userRoutes.js]) *)

Record StatsResponse := mkStatsResponse {
  stats_status : N;
  messagesSent : nat;
  activeConversations : nat
}.

(** [Message.countDocuments({ senderId: userId })] *)
Definition Message_countDocuments (userId : UserId) : DB nat := λ st,
  (size (filter (λ km : N * Message, senderId km.2 = userId)
           (messageDocs st)), st).

(** [Conversation.countDocuments({ participants: userId })] *)
Definition Conversation_countDocuments (userId : UserId) : DB nat := λ st,
  (length (filter (λ c, userId ∈ participants c) (conversationDocs st)), st).

(** [GET /api/user/stats/overview] *)
Definition getStatsOverview (userId : UserId) : DB StatsResponse :=
  let* messageCount := Message_countDocuments userId in
  let* conversationCount := Conversation_countDocuments userId in
  db_ret (mkStatsResponse 200 messageCount conversationCount).

(** [User.findByIdAndDelete(userId)]: the deleted document, if there was
    one.  (Of a user document the store keeps the paths the message routes
    populate.) *)
Definition User_findByIdAndDelete (userId : UserId)
  : DB (option UserProjection) := λ st,
  (userDocs st !! userId,
   {| userDocs := delete userId (userDocs st);
      conversationDocs := conversationDocs st;
      messageDocs := messageDocs st; nextId := nextId st |}).

(** [DELETE /api/user/account]; messages and conversations of the user are
    left in place (the route's TODO). *)
Definition deleteAccount (userId : UserId) : DB Response :=
  let* user := User_findByIdAndDelete userId in
  match user with
  | None => db_ret (mkResponse 404 (JsonError "User not found"))
  | Some _ => db_ret (mkResponse 200 (JsonInfo "Account deleted successfully"))
  end.

(** ** Every request of the routes above *)

(** The socket events and the requests of the message routes are the
    [Event]s; the list route and the two routes of the user router join
    them here. *)
Inductive Request :=
  | event (e : Event)
  | GET_conversations (userId : UserId)
  | GET_stats_overview (userId : UserId)
  | DELETE_account (userId : UserId).

(** The server after a request. *)
Definition serve (w : World) (q : Request) : World :=
  match q with
  | event e => (step w e).1
  | GET_conversations u =>
      mkWorld (getConversations u (db w)).2 (userSocketMap w)
  | GET_stats_overview u =>
      mkWorld (getStatsOverview u (db w)).2 (userSocketMap w)
  | DELETE_account u =>
      mkWorld (deleteAccount u (db w)).2 (userSocketMap w)
  end.

Definition serve_all (w : World) (qs : list Request) : World :=
  foldl serve w qs.

(** ** Vocabulary of the properties *)

(** Four user ids, as the hexadecimal strings of their ObjectIds. *)
Abbreviation alice := "65f0c1a2b3d4e5f607182901" (only parsing).
Abbreviation bob := "65f0c1a2b3d4e5f607182902" (only parsing).
Abbreviation carol := "65f0c1a2b3d4e5f607182903" (only parsing).
Abbreviation dave := "65f0c1a2b3d4e5f607182904" (only parsing).

(** The guard of the connection handler:
    [userId && userId !== "undefined"]. *)
Definition identifies (userId : string) : Prop :=
  JS.truthy userId = true ∧ userId ≠ "undefined".

(** Every handle the connection handler stores is a socket id; when those
    are non-empty strings, every registered handle is truthy. *)
Definition live_handles (reg : JS.object string) : Prop :=
  ∀ u h, JS.get reg u = Some h → JS.truthy h = true.

(** What every store built by the routes satisfies: identifiers come from
    the counter, each at most once, and a listed message that still exists
    belongs to the conversation that lists it. *)
Record wf_store (st : Store) : Prop := mk_wf_store {
  wf_conv_ids : NoDup (conv_id <$> conversationDocs st);
  wf_conv_fresh : ∀ c, c ∈ conversationDocs st → conv_id c < nextId st;
  wf_msg_key : ∀ k m, messageDocs st !! k = Some m → msg_id m = k;
  wf_msg_fresh : ∀ k m, messageDocs st !! k = Some m → k < nextId st;
  wf_listed_fresh :
    ∀ c k, c ∈ conversationDocs st → k ∈ messages c → k < nextId st;
  wf_listed_owner :
    ∀ c k m, c ∈ conversationDocs st → k ∈ messages c →
             messageDocs st !! k = Some m → conversationId m = conv_id c
}.

(** The message document the send route builds. *)
Definition sent_message (u r : UserId) (txt : string) (cid id : ObjectId)
  : Message :=
  {| msg_id := id; senderId := u; receiverId := r; message := JS.trim txt;
     conversationId := cid; isRead := false; messageType := text |}.

(** The send route from [new Message] on, once [conversation] is resolved. *)
Definition send_into (reg : JS.object string) (u r : UserId) (txt : string)
    (now : Time) (c : Conversation) (st : Store)
  : (Response * list Emit) * Store :=
  let m := sent_message u r txt (conv_id c) (nextId st) in
  ((mkResponse 201 (JsonMessage (populate_message st m)),
    emit_if (getReceiverSocketId reg r)
      (λ sid, io_to_emit sid "newMessage" (NewMessage (populate_message st m)))),
   {| userDocs := userDocs st;
      conversationDocs :=
        replace_conversation (with_new_message c (nextId st) now)
          (conversationDocs st);
      messageDocs := <[nextId st := m]> (messageDocs st);
      nextId := N.succ (nextId st) |}).

Definition new_conversation (ps : list UserId) (now : Time) (id : ObjectId)
  : Conversation :=
  {| conv_id := id; participants := ps; messages := [];
     lastMessage := None; lastMessageTime := now; isGroup := false;
     groupName := None; groupAdmin := None |}.

(** [ps], as a set, is the pair of [u] and [r]: it holds both and nobody
    else. *)
Definition same_pair (ps : list UserId) (u r : UserId) : Prop :=
  ∀ x, x ∈ ps ↔ x = u ∨ x = r.

(** The store after [alice] has sent "hi" to [bob] on an empty database. *)
Definition store_alice_bob : Store :=
  (sendMessage [] alice bob (Some "hi") 5 empty_store).2.

(** A send between [u] and [r], in either direction, whose body passes the
    validation. *)
Definition is_send_between (u r : UserId) (e : Event) : bool :=
  match e with
  | POST_send a b body _ =>
      negb (content_missing body)
      && (bool_decide (a = u ∧ b = r) || bool_decide (a = r ∧ b = u))
  | _ => false
  end.

(** The id of the message a 201 response carries. *)
Definition sent_id (o : Outcome) : option ObjectId :=
  match response o with
  | Some res =>
      match json res with
      | JsonMessage pm => Some (msg_id (doc pm))
      | _ => None
      end
  | None => None
  end.

(** The message ids a thread answer carries. *)
Definition thread_ids (o : Outcome) : list ObjectId :=
  match response o with
  | Some res =>
      match json res with
      | JsonMessages ms => (λ pm, msg_id (doc pm)) <$> ms
      | _ => []
      end
  | None => []
  end.

(** [mid] names no stored message and the counter is past it. *)
Definition gone (mid : ObjectId) (st : Store) : Prop :=
  messageDocs st !! mid = None ∧ mid < nextId st.

(** [Conversation.findById]: the stored conversation of a given [_id]. *)
Definition conversation_of (st : Store) (id : ObjectId)
  : option Conversation :=
  find (λ d, bool_decide (conv_id d = id)) (conversationDocs st).

(** Every conversation the routes create has two participants. *)
Definition direct_only (st : Store) : Prop :=
  ∀ c, c ∈ conversationDocs st → length (participants c) = 2%nat.

(** A store with the given user documents in place of its own. *)
Definition with_users (us : gmap string UserProjection) (st : Store)
  : Store :=
  {| userDocs := us; conversationDocs := conversationDocs st;
     messageDocs := messageDocs st; nextId := nextId st |}.

(** The documents of [alice] and [bob]. *)
Definition alice_doc : UserProjection :=
  mkUserProjection "alice" "Alice A" "https://pics.example/a.png".
Definition bob_doc : UserProjection :=
  mkUserProjection "bob" "Bob B" "https://pics.example/b.png".
Definition two_users : gmap string UserProjection :=
  <[alice := alice_doc]> (<[bob := bob_doc]> ∅).

(** Every key of the registry passed the guard of the connection handler,
    and no key occurs twice. *)
Definition clean_registry (reg : JS.object string) : Prop :=
  JS.wf reg ∧ ∀ k, k ∈ JS.keys reg → identifies k.

(** No two users are registered with the same socket id. *)
Definition injective_registry (reg : JS.object string) : Prop :=
  ∀ u u' h, JS.get reg u = Some h → JS.get reg u' = Some h → u = u'.

(** No user is registered with socket id [sid]. *)
Definition unregistered_socket (sid : SocketId) (reg : JS.object string)
  : Prop :=
  ∀ u, JS.get reg u ≠ Some sid.

(** A handshake that carries no usable identity. *)
Definition anonymous (q : option string) : Prop :=
  q = None ∨ q = Some "" ∨ q = Some "undefined".

(** Referential integrity of the two collections, and the shape of a
    stored message: the ids a conversation lists are those of the stored
    messages that name it, each once; the sender and the receiver of a
    message are participants of the conversation it names; its text is
    not empty and has no white space at either end. *)
Record store_sound (st : Store) : Prop := mk_store_sound {
  sound_listed :
    ∀ c k, c ∈ conversationDocs st → k ∈ messages c →
           is_Some (messageDocs st !! k);
  sound_owned :
    ∀ k m, messageDocs st !! k = Some m →
           ∃ c, c ∈ conversationDocs st ∧ conv_id c = conversationId m
                ∧ k ∈ messages c;
  sound_nodup : ∀ c, c ∈ conversationDocs st → NoDup (messages c);
  sound_members :
    ∀ k m c, messageDocs st !! k = Some m → c ∈ conversationDocs st →
             conv_id c = conversationId m →
             senderId m ∈ participants c ∧ receiverId m ∈ participants c;
  sound_body :
    ∀ k m, messageDocs st !! k = Some m →
           message m ≠ "" ∧ JS.trim (message m) = message m
}.

(** What identifies a conversation for its users: its id and its
    participants. *)
Definition conversation_key (c : Conversation) : ObjectId * list UserId :=
  (conv_id c, participants c).

(** * Properties *)

(** ** Objects as dictionaries *)

Section ObjectFacts.
Context {V : Type}.
Implicit Types (o : JS.object V) (k : string) (v : V).

Lemma get_put_eq o k v : JS.get (JS.put o k v) k = Some v.
Proof.
  induction o as [|[k' v'] o IH]; simpl.
  - by rewrite decide_True.
  - destruct (decide (k' = k)) as [->|Hne]; simpl.
    + by rewrite decide_True.
    + by rewrite decide_False.
Qed.

Lemma get_put_ne o k k' v :
  k ≠ k' → JS.get (JS.put o k v) k' = JS.get o k'.
Proof.
  intros Hne. induction o as [|[k1 v1] o IH]; simpl.
  - by rewrite decide_False.
  - destruct (decide (k1 = k)) as [->|Hk]; simpl.
    + by rewrite !decide_False.
    + by rewrite IH.
Qed.

Lemma get_remove_ne o k k' :
  k ≠ k' → JS.get (JS.remove o k) k' = JS.get o k'.
Proof.
  intros Hne. induction o as [|[k1 v1] o IH]; simpl; [done|].
  destruct (decide (k1 = k)) as [->|Hk]; simpl.
  - by rewrite decide_False.
  - by rewrite IH.
Qed.

Lemma get_Some_elem o k v : JS.get o k = Some v → (k, v) ∈ o.
Proof.
  induction o as [|[k1 v1] o IH]; simpl; [done|].
  destruct (decide (k1 = k)) as [->|Hk].
  - intros [= ->]. left.
  - intros H. right. by apply IH.
Qed.

Lemma get_None_keys o k : JS.get o k = None ↔ k ∉ JS.keys o.
Proof.
  unfold JS.keys. induction o as [|[k1 v1] o IH]; simpl.
  - split; [intros _; apply not_elem_of_nil | done].
  - rewrite not_elem_of_cons. destruct (decide (k1 = k)) as [->|Hk].
    + split; [done | intros [? _]; done].
    + rewrite IH. intuition (subst; eauto).
Qed.

Lemma wf_elem_get o k v : JS.wf o → (k, v) ∈ o → JS.get o k = Some v.
Proof.
  unfold JS.wf, JS.keys. induction o as [|[k1 v1] o IH]; simpl.
  - intros _ H. by apply elem_of_nil in H.
  - intros Hnd [Heq|Hin]%elem_of_cons.
    + injection Heq as -> ->. by rewrite decide_True.
    + apply NoDup_cons in Hnd as [Hk1 Hnd].
      destruct (decide (k1 = k)) as [->|Hk]; [|by apply IH].
      exfalso. apply Hk1. apply list_elem_of_fmap. by exists (k, v).
Qed.

Lemma keys_put o k v k' :
  k' ∈ JS.keys (JS.put o k v) ↔ k' = k ∨ k' ∈ JS.keys o.
Proof.
  unfold JS.keys. induction o as [|[k1 v1] o IH]; simpl.
  - rewrite elem_of_cons. intuition (subst; eauto).
  - destruct (decide (k1 = k)) as [->|Hk]; simpl.
    + rewrite !elem_of_cons. intuition (subst; eauto).
    + rewrite !elem_of_cons, IH. intuition (subst; eauto).
Qed.

Lemma keys_remove o k k' :
  k' ∈ JS.keys (JS.remove o k) → k' ∈ JS.keys o.
Proof.
  unfold JS.keys. induction o as [|[k1 v1] o IH]; simpl; [done|].
  destruct (decide (k1 = k)) as [->|Hk]; simpl.
  - intros H. by right.
  - rewrite !elem_of_cons. intuition (subst; eauto).
Qed.

Lemma wf_nil : JS.wf (@nil (string * V)).
Proof. apply NoDup_nil_2. Qed.

Lemma wf_put o k v : JS.wf o → JS.wf (JS.put o k v).
Proof.
  unfold JS.wf, JS.keys. induction o as [|[k1 v1] o IH]; simpl.
  - intros _. apply NoDup_singleton.
  - intros [Hk1 Hnd]%NoDup_cons.
    destruct (decide (k1 = k)) as [->|Hk]; simpl.
    + by apply NoDup_cons.
    + apply NoDup_cons. split; [|by apply IH].
      intros Hin. apply (keys_put o k v k1) in Hin. intuition (subst; eauto).
Qed.

Lemma wf_remove o k : JS.wf o → JS.wf (JS.remove o k).
Proof.
  unfold JS.wf, JS.keys. induction o as [|[k1 v1] o IH]; simpl; [done|].
  intros [Hk1 Hnd]%NoDup_cons.
  destruct (decide (k1 = k)) as [->|Hk]; simpl; [done|].
  apply NoDup_cons. split; [|by apply IH].
  intros Hin. by apply (keys_remove o k k1) in Hin.
Qed.

Lemma get_remove_eq o k : JS.wf o → JS.get (JS.remove o k) k = None.
Proof.
  unfold JS.wf, JS.keys. induction o as [|[k1 v1] o IH]; simpl; [done|].
  intros [Hk1 Hnd]%NoDup_cons.
  destruct (decide (k1 = k)) as [->|Hk]; simpl.
  - by apply get_None_keys.
  - rewrite decide_False by done. by apply IH.
Qed.
End ObjectFacts.

(** ** Presence registry *)

Lemma on_connection_registers sid u (reg : JS.object string) :
  identifies u → (on_connection sid (Some u) reg).1 = JS.put reg u sid.
Proof.
  intros [Ht Hu]. unfold on_connection; simpl.
  by rewrite Ht, bool_decide_true.
Qed.

Lemma on_connection_wf sid q (reg : JS.object string) :
  JS.wf reg → JS.wf (on_connection sid q reg).1.
Proof.
  intros Hwf. unfold on_connection; simpl.
  destruct q as [u|]; [|done].
  destruct (JS.truthy u && bool_decide (u ≠ "undefined")); [|done].
  by apply wf_put.
Qed.

(** The entry the disconnect loop stops at holds the closing socket's id. *)
Lemma disconnect_find sid (reg : JS.object string) u v :
  find (λ entry : string * string, bool_decide (entry.2 = sid))
    (JS.entries reg) = Some (u, v) →
  (u, v) ∈ reg ∧ v = sid.
Proof.
  intros [Hin Hv]%find_some. split.
  - by apply list_elem_of_In.
  - by apply bool_decide_eq_true in Hv.
Qed.

Lemma on_disconnect_wf sid (reg : JS.object string) :
  JS.wf reg → JS.wf (on_disconnect sid reg).1.
Proof.
  intros Hwf. unfold on_disconnect; simpl.
  destruct (find _ _) as [[u v]|]; [|done]. by apply wf_remove.
Qed.

(** A mapping whose handle is not the closing one survives the
    disconnect. *)
Lemma on_disconnect_other sid (reg : JS.object string) u h :
  JS.wf reg → JS.get reg u = Some h → h ≠ sid →
  JS.get (on_disconnect sid reg).1 u = Some h.
Proof.
  intros Hwf Hget Hne. unfold on_disconnect; simpl.
  destruct (find _ _) as [[u' v]|] eqn:Hfind; [|done].
  apply disconnect_find in Hfind as [Hin ->].
  destruct (decide (u' = u)) as [->|Hu].
  - apply (wf_elem_get _ _ _ Hwf) in Hin. congruence.
  - by rewrite get_remove_ne.
Qed.

(** The handle of a user who is the only one registered with it is removed
    by the disconnect of that handle. *)
Lemma on_disconnect_removes sid (reg : JS.object string) u :
  JS.wf reg → JS.get reg u = Some sid →
  (∀ u', JS.get reg u' = Some sid → u' = u) →
  JS.get (on_disconnect sid reg).1 u = None.
Proof.
  intros Hwf Hget Huniq. unfold on_disconnect; simpl.
  destruct (find _ _) as [[u' v]|] eqn:Hfind.
  - apply disconnect_find in Hfind as [Hin ->].
    apply (wf_elem_get _ _ _ Hwf) in Hin.
    rewrite (Huniq _ Hin). by apply get_remove_eq.
  - exfalso. apply get_Some_elem in Hget.
    apply list_elem_of_In in Hget.
    apply (find_none _ _ Hfind) in Hget. simpl in Hget.
    by rewrite bool_decide_true in Hget.
Qed.

(** C2: a connection identifying as [u] maps [u] to its socket whatever
    [u] was mapped to before, and leaves the other users' entries alone; a
    disconnect of handle [c] leaves a mapping
    [u ↦ h] in place unless [h = c]; so after [c1] then [c2] connect as [u]
    and [c1] closes, [u] is mapped to [c2]; and from the empty registry,
    after [A] connects on [cA], [B] on [cB] and [cA] closes, the broadcast
    snapshot is exactly [B].  (Distinct connections carry distinct socket
    ids.) *)
Theorem presence_last_connection_wins
    (reg : JS.object string) (u A B : UserId) (c1 c2 cA cB : SocketId) :
  JS.wf reg → identifies u → identifies A → identifies B →
  A ≠ B → c1 ≠ c2 → cA ≠ cB →
  JS.get (on_connection c1 (Some u) reg).1 u = Some c1
  ∧ (∀ u', u' ≠ u →
           JS.get (on_connection c1 (Some u) reg).1 u' = JS.get reg u')
  ∧ (∀ c h, JS.get reg u = Some h →
            JS.get (on_disconnect c reg).1 u ≠ Some h → h = c)
  ∧ (let r1 := (on_connection c1 (Some u) reg).1 in
     let r2 := (on_connection c2 (Some u) r1).1 in
     JS.get r2 u = Some c2
     ∧ JS.get (on_disconnect c1 r2).1 u = Some c2)
  ∧ (let r1 := (on_connection cA (Some A) []).1 in
     let r2 := (on_connection cB (Some B) r1).1 in
     on_disconnect cA r2
     = ([(B, cB)], [io_emit "getOnlineUsers" (OnlineUsers [B])])).
Proof.
  intros Hwf Hu HA HB HAB Hc HcAB. repeat split.
  - rewrite on_connection_registers by done. apply get_put_eq.
  - intros u' Hu'. rewrite on_connection_registers by done.
    by apply get_put_ne.
  - intros c h Hget Hgone. destruct (decide (h = c)) as [|Hne]; [done|].
    exfalso. apply Hgone. by apply on_disconnect_other.
  - rewrite !on_connection_registers by done. apply get_put_eq.
  - rewrite !on_connection_registers by done.
    apply on_disconnect_other; [by do 2 apply wf_put | apply get_put_eq |].
    by intros ->.
  - cbv zeta. rewrite (on_connection_registers cA A) by done.
    rewrite (on_connection_registers cB B) by done. simpl.
    rewrite decide_False by done. unfold on_disconnect; simpl.
    rewrite bool_decide_true by done. simpl. by rewrite decide_True.
Qed.

Lemma presence_last_connection_wins_witness :
  JS.get (on_connection "c1" (Some carol) [(dave, "c0")]).1 carol = Some "c1"
  ∧ on_disconnect "sA"
      (on_connection "sB" (Some bob) (on_connection "sA" (Some alice) []).1).1
    = ([(bob, "sB")], [io_emit "getOnlineUsers" (OnlineUsers [bob])]).
Proof.
  pose proof (presence_last_connection_wins
                [(dave, "c0")] carol alice bob "c1" "c2" "sA" "sB") as H.
  destruct H as (H1 & _ & _ & _ & H4).
  - unfold JS.wf, JS.keys; simpl. apply NoDup_singleton.
  - by split.
  - by split.
  - by split.
  - done.
  - done.
  - done.
  - split; [exact H1 | exact H4].
Defined.

(** ** Realtime relay *)

Lemma emit_if_None e : emit_if None e = [].
Proof. done. Qed.

Lemma emit_if_Some sid e :
  JS.truthy sid = true → emit_if (Some sid) e = [e sid].
Proof. intros H. unfold emit_if. by rewrite H. Qed.

Lemma on_connection_live sid q reg :
  JS.truthy sid = true → live_handles reg →
  live_handles (on_connection sid q reg).1.
Proof.
  intros Hsid Hreg. unfold on_connection; simpl.
  destruct q as [u|]; [|done].
  destruct (JS.truthy u && bool_decide (u ≠ "undefined")); [|done].
  intros u' h. destruct (decide (u = u')) as [->|Hne].
  - rewrite get_put_eq. by intros [= <-].
  - rewrite get_put_ne by done. apply Hreg.
Qed.

Lemma on_disconnect_live sid reg :
  JS.wf reg → live_handles reg → live_handles (on_disconnect sid reg).1.
Proof.
  intros Hwf Hreg. unfold on_disconnect; simpl.
  destruct (find _ _) as [[u v]|]; [|done].
  intros u' h. destruct (decide (u = u')) as [->|Hne].
  - by rewrite get_remove_eq.
  - rewrite get_remove_ne by done. apply Hreg.
Qed.

(** C8: a typing event whose receiver, and a read-receipt event whose
    original sender, has no registered connection emits nothing and leaves
    the whole server state (store and registry) as it was; the handlers are
    total, so no error is raised.  When the target is registered (with a
    socket id, a non-empty string), the one emission is addressed to that
    socket alone and carries [{senderId, isTyping}], respectively
    [{messageId, readBy}]; the state is unchanged there too. *)
Theorem relay_typing_and_read_receipt
    (w : World) (socket_id : SocketId) (t : TypingData)
    (r : MessageReadData) :
  (JS.get (userSocketMap w) (typing_receiverId t) = None →
   step w (typing socket_id t) = (w, mkOutcome None []))
  ∧ (JS.get (userSocketMap w) (read_senderId r) = None →
     step w (messageRead socket_id r) = (w, mkOutcome None []))
  ∧ (∀ h, JS.get (userSocketMap w) (typing_receiverId t) = Some h →
          JS.truthy h = true →
          step w (typing socket_id t)
          = (w, mkOutcome None
                  [socket_to_emit socket_id h "typing"
                     (Typing (typing_senderId t) (typing_isTyping t))]))
  ∧ (∀ h, JS.get (userSocketMap w) (read_senderId r) = Some h →
          JS.truthy h = true →
          step w (messageRead socket_id r)
          = (w, mkOutcome None
                  [socket_to_emit socket_id h "messageRead"
                     (MessageRead (read_messageId r) (read_readBy r))])).
Proof.
  repeat split; simpl; unfold on_typing, on_messageRead.
  - intros ->. by rewrite emit_if_None.
  - intros ->. by rewrite emit_if_None.
  - intros h -> Hh. by rewrite emit_if_Some.
  - intros h -> Hh. by rewrite emit_if_Some.
Qed.

Lemma relay_typing_and_read_receipt_witness :
  let w := mkWorld empty_store [(bob, "sB")] in
  step w (typing "sA" (mkTypingData alice carol true)) = (w, mkOutcome None [])
  ∧ step w (messageRead "sA" (mkMessageReadData carol "m1" alice))
    = (w, mkOutcome None [])
  ∧ step w (typing "sA" (mkTypingData alice bob true))
    = (w, mkOutcome None [socket_to_emit "sA" "sB" "typing" (Typing alice true)])
  ∧ step w (messageRead "sA" (mkMessageReadData bob "m1" alice))
    = (w, mkOutcome None
            [socket_to_emit "sA" "sB" "messageRead" (MessageRead "m1" alice)]).
Proof.
  intros w.
  destruct (relay_typing_and_read_receipt w "sA"
              (mkTypingData alice carol true) (mkMessageReadData carol "m1" alice))
    as (H1 & H2 & _ & _).
  destruct (relay_typing_and_read_receipt w "sA"
              (mkTypingData alice bob true) (mkMessageReadData bob "m1" alice))
    as (_ & _ & H3 & H4).
  split; [apply H1; reflexivity|].
  split; [apply H2; reflexivity|].
  split; [apply (H3 "sB"); reflexivity | apply (H4 "sB"); reflexivity].
Defined.

(** ** The store invariant *)

Lemma wf_empty_store : wf_store empty_store.
Proof.
  split; simpl; try (intros; exfalso; eapply elem_of_nil; eauto; fail).
  - apply NoDup_nil_2.
  - intros k m H. by rewrite lookup_empty in H.
  - intros k m H. by rewrite lookup_empty in H.
Qed.

(** *** Lists of conversations *)

Lemma replace_conversation_ids c cs :
  conv_id <$> replace_conversation c cs = conv_id <$> cs.
Proof.
  unfold replace_conversation. rewrite <- list_fmap_compose.
  apply list_fmap_ext. intros _ d _; simpl.
  by destruct (decide (conv_id d = conv_id c)).
Qed.

Lemma replace_conversation_absent c cs :
  (∀ d, d ∈ cs → conv_id d ≠ conv_id c) → replace_conversation c cs = cs.
Proof.
  unfold replace_conversation. induction cs as [|d cs IH]; [done|].
  intros H. rewrite fmap_cons, decide_False by (apply H; left).
  f_equal. apply IH. intros d' Hd'. apply H. by right.
Qed.

Lemma replace_conversation_elem c cs d :
  d ∈ replace_conversation c cs →
  (d = c ∧ ∃ d0, d0 ∈ cs ∧ conv_id d0 = conv_id c)
  ∨ (d ∈ cs ∧ conv_id d ≠ conv_id c).
Proof.
  unfold replace_conversation. intros (d0 & -> & Hd0)%list_elem_of_fmap.
  destruct (decide (conv_id d0 = conv_id c)); [left|right]; eauto.
Qed.

Lemma pull_from_ids id mid cs : conv_id <$> pull_from id mid cs = conv_id <$> cs.
Proof.
  unfold pull_from. rewrite <- list_fmap_compose.
  apply list_fmap_ext. intros _ d _; simpl.
  by destruct (decide (conv_id d = id)).
Qed.

Lemma pull_from_elem id mid cs d :
  d ∈ pull_from id mid cs →
  ∃ d0, d0 ∈ cs ∧ conv_id d = conv_id d0
        ∧ participants d = participants d0
        ∧ (∀ k, k ∈ messages d → k ∈ messages d0)
        ∧ (conv_id d0 = id → mid ∉ messages d).
Proof.
  unfold pull_from. intros (d0 & -> & Hd0)%list_elem_of_fmap.
  exists d0. destruct (decide (conv_id d0 = id)) as [Hid|Hid]; simpl.
  - repeat split; [done| |].
    + intros k [_ Hk]%list_elem_of_filter; done.
    + intros _ [Hne _]%list_elem_of_filter. done.
  - repeat split; done.
Qed.

(** A [find] whose predicate is blind to the update commutes with it. *)
Lemma find_map_invariant {A} (p : A → bool) (f : A → A) (l : list A) :
  (∀ x, p (f x) = p x) → find p (f <$> l) = f <$> find p l.
Proof.
  intros Hp. induction l as [|x l IH]; [done|].
  rewrite fmap_cons. simpl. rewrite Hp. by destruct (p x).
Qed.

Lemma find_elem {A} (p : A → bool) (l : list A) x :
  find p l = Some x → x ∈ l ∧ p x = true.
Proof. intros [H1 H2]%find_some. split; [by apply list_elem_of_In | done]. Qed.

Lemma find_None_elem {A} (p : A → bool) (l : list A) :
  find p l = None ↔ ∀ x, x ∈ l → p x = false.
Proof.
  split.
  - intros H x Hx. apply (find_none _ _ H). by apply list_elem_of_In.
  - intros H. induction l as [|x l IH]; simpl; [done|].
    rewrite (H x) by left. apply IH. intros y Hy. apply H. by right.
Qed.

Lemma find_app_None {A} (p : A → bool) (l1 l2 : list A) :
  find p l1 = None → find p (l1 ++ l2) = find p l2.
Proof.
  induction l1 as [|x l1 IH]; simpl; [done|].
  destruct (p x); [done | apply IH].
Qed.

(** [$all] is a containment test, blind to the order of the wanted ids. *)
Lemma matches_all_pair u r c :
  matches_all [u; r] c = true ↔ u ∈ participants c ∧ r ∈ participants c.
Proof.
  unfold matches_all; simpl. rewrite andb_true_r, andb_true_iff.
  by rewrite !bool_decide_eq_true.
Qed.

Lemma matches_all_swap u r c : matches_all [u; r] c = matches_all [r; u] c.
Proof. unfold matches_all; simpl. by rewrite !andb_true_r, andb_comm. Qed.

(** ** Trimming *)

Lemma append_nil_l s : "" +:+ s = s.
Proof. done. Qed.

Lemma append_cons c s t : String c s +:+ t = String c (s +:+ t).
Proof. done. Qed.

Lemma append_nil_r s : s +:+ "" = s.
Proof. induction s as [|c s IH]; [done|]. rewrite !append_cons; simpl. by f_equal. Qed.

Lemma append_assoc s t u : (s +:+ t) +:+ u = s +:+ (t +:+ u).
Proof. induction s as [|c s IH]; [done|]. rewrite !append_cons; simpl. by f_equal. Qed.

Lemma length_append s t :
  String.length (s +:+ t) = (String.length s + String.length t)%nat.
Proof. induction s as [|c s IH]; [done|]. rewrite !append_cons; simpl. by f_equal. Qed.

(** A white-space character is one, two or three bytes long, and none is
    the start or the end of another. *)
Lemma white_space_bytes w :
  JS.is_white_space w = true →
  (∃ a, w = String a "")
  ∨ (∃ a b, w = String a (String b "")
            ∧ JS.is_white_space (String a "") = false
            ∧ JS.is_white_space (String b "") = false)
  ∨ (∃ a b c, w = String a (String b (String c ""))
              ∧ JS.is_white_space (String a "") = false
              ∧ JS.is_white_space (String a (String b "")) = false
              ∧ JS.is_white_space (String c "") = false
              ∧ JS.is_white_space (String b (String c "")) = false).
Proof.
  intros H%bool_decide_eq_true. unfold JS.white_space in H.
  repeat (apply elem_of_cons in H as [->|H]);
    try (by apply elem_of_nil in H);
    first [ left; eexists; reflexivity
          | right; left; do 2 eexists; by vm_compute
          | right; right; do 3 eexists; by vm_compute ].
Qed.

Lemma trimStart_white w r :
  JS.is_white_space w = true → JS.trimStart (w +:+ r) = JS.trimStart r.
Proof.
  intros Hw.
  destruct (white_space_bytes w Hw)
    as [(a & ->)|[(a & b & -> & Ha & _)|(a & b & c & -> & Ha & Hab & _)]];
    rewrite !append_cons, append_nil_l; simpl.
  - by rewrite Hw.
  - by rewrite Ha, Hw.
  - by rewrite Ha, Hab, Hw.
Qed.

(** One step of [trimStart]: a leading white-space character is dropped,
    or nothing is and the text starts with none. *)
Lemma trimStart_step s :
  (∃ w r, JS.is_white_space w = true ∧ s = w +:+ r
          ∧ JS.trimStart s = JS.trimStart r)
  ∨ (JS.trimStart s = s
     ∧ ∀ w r, JS.is_white_space w = true → s ≠ w +:+ r).
Proof.
  assert (JS.is_white_space "" = false) as Hnil by by vm_compute.
  destruct s as [|a s1].
  { right. split; [done|]. intros w r Hw Heq.
    destruct w; [congruence | discriminate]. }
  destruct (JS.is_white_space (String a "")) eqn:Ha.
  { left. exists (String a ""), s1. simpl. by rewrite Ha. }
  destruct s1 as [|b s2].
  { right. simpl. rewrite Ha. split; [done|]. intros w r Hw Heq.
    destruct (white_space_bytes w Hw)
      as [(x & ->)|[(x & y & -> & _)|(x & y & z & -> & _)]];
      rewrite !append_cons in Heq; congruence. }
  destruct (JS.is_white_space (String a (String b ""))) eqn:Hab.
  { left. exists (String a (String b "")), s2. simpl. by rewrite Ha, Hab. }
  destruct s2 as [|c s3].
  { right. simpl. rewrite Ha, Hab. split; [done|]. intros w r Hw Heq.
    destruct (white_space_bytes w Hw)
      as [(x & ->)|[(x & y & -> & _)|(x & y & z & -> & _)]];
      rewrite !append_cons in Heq; congruence. }
  destruct (JS.is_white_space (String a (String b (String c "")))) eqn:Habc.
  { left. exists (String a (String b (String c ""))), s3. simpl.
    by rewrite Ha, Hab, Habc. }
  right. simpl. rewrite Ha, Hab, Habc. split; [done|]. intros w r Hw Heq.
  destruct (white_space_bytes w Hw)
    as [(x & ->)|[(x & y & -> & _)|(x & y & z & -> & _)]];
    rewrite !append_cons in Heq; congruence.
Qed.

Lemma white_space_nonempty w r :
  JS.is_white_space w = true →
  (String.length r < String.length (w +:+ r))%nat.
Proof.
  intros Hw. rewrite length_append.
  destruct (white_space_bytes w Hw)
    as [(x & ->)|[(x & y & -> & _)|(x & y & z & -> & _)]]; simpl; lia.
Qed.

(** [trimStart] drops leading white space and nothing else, and what it
    returns starts with no white space. *)
Lemma trimStart_split s :
  ∃ p, JS.blank p ∧ s = p +:+ JS.trimStart s
       ∧ ∀ w r, JS.is_white_space w = true → JS.trimStart s ≠ w +:+ r.
Proof.
  remember (String.length s) as n eqn:Hn. revert s Hn.
  induction (lt_wf n) as [n _ IH]. intros s ->.
  destruct (trimStart_step s) as [(w & r & Hw & -> & Heq)|[Heq Hclean]].
  - destruct (IH _ (white_space_nonempty w r Hw) r eq_refl)
      as (p & Hp & Hr & Hclean).
    exists (w +:+ p). rewrite Heq. split; [by constructor|].
    split; [|done]. by rewrite append_assoc, <- Hr.
  - exists "". rewrite Heq. split; [constructor|]. by split.
Qed.

Lemma trimStart_fixed s :
  (∀ w r, JS.is_white_space w = true → s ≠ w +:+ r) → JS.trimStart s = s.
Proof.
  intros Hclean.
  destruct (trimStart_step s) as [(w & r & Hw & -> & _)|[Heq _]]; [|done].
  by destruct (Hclean w r Hw).
Qed.

Lemma trimStart_blank p r :
  JS.blank p → JS.trimStart (p +:+ r) = JS.trimStart r.
Proof.
  induction 1 as [|w s Hw _ IH]; [done|].
  by rewrite append_assoc, trimStart_white.
Qed.

(** [trimEnd] drops trailing white space and nothing else. *)
Lemma trimEnd_split s : ∃ q, JS.blank q ∧ s = JS.trimEnd s +:+ q.
Proof.
  induction s as [|c s (q & Hq & IH)]; [exists ""; split; [constructor|done]|].
  simpl. destruct (JS.is_white_space (String c (JS.trimEnd s))) eqn:Hw.
  - exists (String c (JS.trimEnd s) +:+ q). split; [by constructor|].
    by rewrite append_nil_l, append_cons, <- IH.
  - exists q. split; [done|]. by rewrite append_cons, <- IH.
Qed.

Lemma trimEnd_idem s : JS.trimEnd (JS.trimEnd s) = JS.trimEnd s.
Proof.
  induction s as [|c s IH]; [done|]. simpl.
  destruct (JS.is_white_space (String c (JS.trimEnd s))) eqn:Hw; [done|].
  simpl. by rewrite IH, Hw.
Qed.

Lemma trimEnd_white r w :
  JS.is_white_space w = true → JS.trimEnd (r +:+ w) = JS.trimEnd r.
Proof.
  intros Hw. induction r as [|c r IH].
  - rewrite append_nil_l.
    destruct (white_space_bytes w Hw)
      as [(x & ->)|[(x & y & -> & _ & Hy)
                   |(x & y & z & -> & _ & _ & Hz & Hyz)]]; simpl.
    + by rewrite Hw.
    + by rewrite Hy, Hw.
    + by rewrite Hz, Hyz, Hw.
  - rewrite append_cons. simpl. by rewrite IH.
Qed.

(** What [trimEnd] returns ends with no white space. *)
Lemma trimEnd_clean s w r :
  JS.is_white_space w = true → JS.trimEnd s ≠ r +:+ w.
Proof.
  intros Hw Heq.
  assert (JS.trimEnd r = r +:+ w) as Hr.
  { by rewrite <- (trimEnd_white r w Hw), <- Heq, trimEnd_idem. }
  destruct (trimEnd_split r) as (q & _ & Hq).
  apply (f_equal String.length) in Hr, Hq.
  rewrite !length_append in *.
  destruct (white_space_bytes w Hw)
    as [(x & ->)|[(x & y & -> & _)|(x & y & z & -> & _)]];
    simpl in *; lia.
Qed.

Lemma blank_app p q : JS.blank p → JS.blank q → JS.blank (p +:+ q).
Proof.
  induction 1 as [|w s Hw _ IH]; intros Hq; [done|].
  rewrite append_assoc. constructor; auto.
Qed.

(** What [trim] returns neither starts nor ends with white space, and it is
    left as it is by a further [trimStart], [trimEnd] or [trim]. *)
Lemma trim_clean s :
  (∀ w r, JS.is_white_space w = true → JS.trim s ≠ w +:+ r)
  ∧ (∀ w r, JS.is_white_space w = true → JS.trim s ≠ r +:+ w)
  ∧ JS.trimStart (JS.trim s) = JS.trim s
  ∧ JS.trimEnd (JS.trim s) = JS.trim s.
Proof.
  unfold JS.trim.
  destruct (trimStart_split s) as (p & _ & _ & Hstart).
  destruct (trimEnd_split (JS.trimStart s)) as (q & _ & Hq).
  assert (∀ w r, JS.is_white_space w = true
                 → JS.trimEnd (JS.trimStart s) ≠ w +:+ r) as Hclean.
  { intros w r Hw Heq. apply (Hstart w (r +:+ q) Hw).
    by rewrite Hq at 1; rewrite Heq, append_assoc. }
  split; [done|]. split; [intros w r Hw; by apply trimEnd_clean|].
  split; [by apply trimStart_fixed | apply trimEnd_idem].
Qed.

Lemma trim_idem s : JS.trim (JS.trim s) = JS.trim s.
Proof.
  destruct (trim_clean s) as (_ & _ & Hstart & Hend).
  unfold JS.trim at 1. by rewrite Hstart.
Qed.

(** [trim] gives the empty string exactly on the texts made of white space
    only. *)
Lemma trim_blank s : JS.trim s = "" ↔ JS.blank s.
Proof.
  unfold JS.trim. split.
  - intros Ht. destruct (trimStart_split s) as (p & Hp & Hs & _).
    destruct (trimEnd_split (JS.trimStart s)) as (q & Hq & Hu).
    rewrite Ht, append_nil_l in Hu. rewrite Hs, Hu. by apply blank_app.
  - intros Hs. rewrite <- (append_nil_r s), (trimStart_blank s "" Hs). done.
Qed.

(** ** Sending *)

Lemma sendMessage_rejects reg u r body now st :
  content_missing body = true →
  sendMessage reg u r body now st
  = ((mkResponse 400 (JsonError "Message content is required"), []), st).
Proof.
  intros H. unfold sendMessage. destruct body as [txt|]; [|done].
  by rewrite H.
Qed.

Lemma sendMessage_accepts reg u r txt now st :
  content_missing (Some txt) = false →
  sendMessage reg u r (Some txt) now st
  = match find (matches_all [u; r]) (conversationDocs st) with
    | Some c => send_into reg u r txt now c st
    | None =>
        let '(c, st1) := Conversation_create [u; r] now st in
        send_into reg u r txt now c st1
    end.
Proof.
  intros H. unfold sendMessage. rewrite H.
  unfold db_bind, Conversation_findOne; simpl.
  by destruct (find _ _).
Qed.

Lemma content_missing_trim body :
  content_missing body = true
  ↔ body = None ∨ ∃ txt, body = Some txt ∧ JS.trim txt = "".
Proof.
  destruct body as [txt|]; simpl.
  - rewrite orb_true_iff, negb_true_iff, bool_decide_eq_true. split.
    + intros [Hf|Ht]; right; exists txt; split; try done.
      by destruct txt.
    + intros [|(t & [= <-] & Ht)]; [done | by right].
  - split; [by left | done].
Qed.

(** *** Creating a conversation keeps the invariant *)

Lemma Conversation_create_eq ps now st :
  Conversation_create ps now st
  = (new_conversation ps now (nextId st),
     {| userDocs := userDocs st;
        conversationDocs :=
          conversationDocs st ++ [new_conversation ps now (nextId st)];
        messageDocs := messageDocs st;
        nextId := N.succ (nextId st) |}).
Proof. done. Qed.

Lemma Conversation_create_wf ps now st :
  wf_store st → wf_store (Conversation_create ps now st).2.
Proof.
  intros [Hnd Hcf Hmk Hmf Hlf Hlo]. rewrite Conversation_create_eq.
  split; simpl.
  - rewrite fmap_app. apply NoDup_app. repeat split; [done| |].
    + intros x (d & -> & Hd)%list_elem_of_fmap Hx.
      apply list_elem_of_singleton in Hx. apply Hcf in Hd. simpl in Hx. lia.
    + apply NoDup_singleton.
  - intros c [Hc| ->%list_elem_of_singleton]%elem_of_app;
      [apply Hcf in Hc|simpl]; lia.
  - done.
  - intros k m Hk. apply Hmf in Hk. lia.
  - intros c k [Hc| ->%list_elem_of_singleton]%elem_of_app Hk.
    + pose proof (Hlf _ _ Hc Hk). lia.
    + simpl in Hk. by apply elem_of_nil in Hk.
  - intros c k m [Hc| ->%list_elem_of_singleton]%elem_of_app Hk.
    + by apply Hlo.
    + simpl in Hk. by apply elem_of_nil in Hk.
Qed.

(** *** Appending a message keeps the invariant *)

Lemma send_into_wf reg u r txt now c st :
  wf_store st → c ∈ conversationDocs st →
  wf_store (send_into reg u r txt now c st).2.
Proof.
  intros [Hnd Hcf Hmk Hmf Hlf Hlo] Hc. unfold send_into; simpl.
  split; simpl.
  - by rewrite replace_conversation_ids.
  - intros d [[-> (d0 & Hd0 & _)]|[Hd _]]%replace_conversation_elem.
    + simpl. apply Hcf in Hc. lia.
    + apply Hcf in Hd. lia.
  - intros k m. rewrite lookup_insert. case_decide as Hk.
    + intros [= <-]. done.
    + apply Hmk.
  - intros k m. rewrite lookup_insert. case_decide as Hk.
    + intros _. lia.
    + intros Hm. apply Hmf in Hm. lia.
  - intros d k [[-> _]|[Hd _]]%replace_conversation_elem Hk.
    + simpl in Hk. apply elem_of_app in Hk as [Hk|Hk%list_elem_of_singleton].
      * pose proof (Hlf _ _ Hc Hk). lia.
      * lia.
    + pose proof (Hlf _ _ Hd Hk). lia.
  - intros d k m [[-> _]|[Hd _]]%replace_conversation_elem Hk.
    + simpl in Hk. simpl.
      apply elem_of_app in Hk as [Hk|Hk%list_elem_of_singleton].
      * pose proof (Hlf _ _ Hc Hk). rewrite lookup_insert_ne by lia.
        by apply Hlo.
      * subst k. rewrite lookup_insert_eq. by intros [= <-].
    + pose proof (Hlf _ _ Hd Hk). rewrite lookup_insert_ne by lia.
      by apply Hlo.
Qed.

Lemma sendMessage_wf reg u r body now st :
  wf_store st → wf_store (sendMessage reg u r body now st).2.
Proof.
  intros Hwf. destruct (content_missing body) eqn:Hb.
  - by rewrite sendMessage_rejects.
  - destruct body as [txt|]; [|done].
    rewrite sendMessage_accepts by done.
    destruct (find _ _) as [c|] eqn:Hfind.
    + apply send_into_wf; [done|]. by apply find_elem in Hfind as [? _].
    + rewrite Conversation_create_eq.
      apply send_into_wf.
      * pose proof (Conversation_create_wf [u; r] now st Hwf) as H.
        by rewrite Conversation_create_eq in H.
      * simpl. apply elem_of_app. right. left.
Qed.

(** C5: a send request is answered 400 exactly when the message is missing
    or trims to the empty string, that is, when it is missing, empty or
    made of white-space characters only; then the store is left as it was
    (no message record, no conversation created or modified) and nothing is
    emitted.  Every other request is answered 201. *)
Theorem send_validation (reg : JS.object string) (u r : UserId)
    (body : option string) (now : Time) (st : Store) :
  let '((res, es), st') := sendMessage reg u r body now st in
  (status res = 400
   ↔ body = None ∨ ∃ txt, body = Some txt ∧ JS.trim txt = "")
  ∧ (status res = 400 → st' = st ∧ es = [])
  ∧ (status res ≠ 400 → status res = 201)
  ∧ (status res = 400
     ↔ body = None ∨ ∃ txt, body = Some txt ∧ JS.blank txt).
Proof.
  pose proof (content_missing_trim body) as Htrim.
  assert ((body = None ∨ ∃ txt, body = Some txt ∧ JS.trim txt = "")
          ↔ (body = None ∨ ∃ txt, body = Some txt ∧ JS.blank txt)) as Hblank.
  { split; (intros [?|(txt & ? & Ht)]; [by left|right]);
      exists txt; split; try done; by apply trim_blank. }
  destruct (content_missing body) eqn:Hb.
  - rewrite sendMessage_rejects by done. simpl.
    rewrite <- Hblank, <- Htrim. by repeat split.
  - destruct body as [txt|]; [|done].
    rewrite sendMessage_accepts by done.
    destruct (find _ _) as [c|]; simpl; rewrite <- Hblank, <- Htrim;
      by repeat split.
Qed.

Lemma send_validation_witness :
  let blank_body := JS.utf8 0x2003 +:+ " " +:+ JS.utf8 0x3000 in
  status (sendMessage [] alice bob (Some "  ") 3 empty_store).1.1 = 400
  ∧ (sendMessage [] alice bob (Some "  ") 3 empty_store).2 = empty_store
  ∧ status (sendMessage [] alice bob None 3 empty_store).1.1 = 400
  ∧ status (sendMessage [] alice bob (Some " hi ") 3 empty_store).1.1 = 201
  ∧ status (sendMessage [] alice bob (Some blank_body) 3 empty_store).1.1
    = 400.
Proof.
  intros blank_body.
  pose proof (send_validation [] alice bob (Some "  ") 3 empty_store) as H1.
  pose proof (send_validation [] alice bob None 3 empty_store) as H2.
  pose proof (send_validation [] alice bob (Some " hi ") 3 empty_store) as H3.
  pose proof (send_validation [] alice bob (Some blank_body) 3 empty_store)
    as H4.
  destruct (sendMessage [] alice bob (Some "  ") 3 empty_store)
    as [[r1 e1] s1].
  destruct (sendMessage [] alice bob None 3 empty_store) as [[r2 e2] s2].
  destruct (sendMessage [] alice bob (Some " hi ") 3 empty_store)
    as [[r3 e3] s3] eqn:H3s.
  destruct (sendMessage [] alice bob (Some blank_body) 3 empty_store)
    as [[r4 e4] s4].
  destruct H1 as (H1 & H1' & _). destruct H2 as (H2 & _ & _).
  destruct H3 as (H3 & _ & H3' & _). destruct H4 as (_ & _ & _ & H4).
  assert (status r1 = 400) as Hr1.
  { apply H1. right. by exists "  ". }
  simpl. split; [done|]. split; [by apply H1'|].
  split; [apply H2; by left|].
  split.
  - apply H3'. intros Hs. apply H3 in Hs as [?|(txt & [= <-] & Ht)]; done.
  - apply H4. right. exists blank_body. split; [done|].
    unfold blank_body.
    apply (JS.blank_more (JS.utf8 0x2003)); [by vm_compute|].
    apply (JS.blank_more " "); [by vm_compute|].
    rewrite <- (append_nil_r (JS.utf8 0x3000)).
    apply JS.blank_more; [by vm_compute | constructor].
Defined.

(** *** First message between two users *)

Lemma sendMessage_first reg u r txt now st :
  wf_store st → content_missing (Some txt) = false →
  find (matches_all [u; r]) (conversationDocs st) = None →
  let cid := nextId st in
  let mid := N.succ (nextId st) in
  let m := sent_message u r txt cid mid in
  sendMessage reg u r (Some txt) now st
  = ((mkResponse 201 (JsonMessage (populate_message st m)),
      emit_if (getReceiverSocketId reg r)
        (λ sid, io_to_emit sid "newMessage"
                  (NewMessage (populate_message st m)))),
     {| userDocs := userDocs st;
        conversationDocs :=
          conversationDocs st
          ++ [with_new_message (new_conversation [u; r] now cid) mid now];
        messageDocs := <[mid := m]> (messageDocs st);
        nextId := N.succ mid |}).
Proof.
  intros Hwf Hb Hfind cid mid m.
  rewrite sendMessage_accepts, Hfind, Conversation_create_eq by done.
  unfold send_into; simpl. fold cid mid m. do 2 f_equal.
  unfold replace_conversation. rewrite fmap_app; simpl.
  rewrite decide_True by done. f_equal.
  apply (replace_conversation_absent
           (with_new_message (new_conversation [u; r] now cid) mid now)).
  intros d Hd; simpl.
  apply (wf_conv_fresh _ Hwf) in Hd. fold cid in Hd. lia.
Qed.

(** On a conversation with exactly two participants, and for two distinct
    users, the [$all] lookup is the equality of participant sets. *)
Lemma lookup_exact_on_direct_chat (c : Conversation) (u r : UserId) :
  u ≠ r → length (participants c) = 2%nat →
  matches_all [u; r] c = true ↔ same_pair (participants c) u r.
Proof.
  intros Hne Hlen. rewrite matches_all_pair. unfold same_pair.
  destruct (participants c) as [|a [|b [|? ?]]]; try done.
  split.
  - intros [Hu Hr] x. rewrite !elem_of_cons in *.
    pose proof (not_elem_of_nil x). pose proof (not_elem_of_nil u).
    pose proof (not_elem_of_nil r).
    destruct Hu as [->|[->|?]]; [| |done];
      destruct Hr as [->|[->|?]]; try done; intuition congruence.
  - intros H. split; apply H; auto.
Qed.

(** C1: for every pair of two users, on a store whose conversations have
    two participants each (as every store the routes build has), the
    lookup of the send route selects exactly the conversations whose
    participant set is the pair.  When no conversation of the pair exists,
    a send with a non-blank body creates exactly one conversation: it is
    appended to the collection under a fresh id, its participants are the
    sender and the receiver, and its message list holds exactly the id of
    the one message record the send creates and answers with.  When a
    conversation of the pair exists, none is created. *)
Theorem send_creates_conversation (reg : JS.object string) (st : Store)
    (u r : UserId) (txt : string) (now : Time) :
  wf_store st → direct_only st → u ≠ r →
  content_missing (Some txt) = false →
  let cid := nextId st in
  let mid := N.succ (nextId st) in
  let '((res, es), st') := sendMessage reg u r (Some txt) now st in
  (∀ c, c ∈ conversationDocs st →
        matches_all [u; r] c = true ↔ same_pair (participants c) u r)
  ∧ ((∀ c, c ∈ conversationDocs st → ¬ same_pair (participants c) u r) →
     status res = 201
     ∧ json res
       = JsonMessage (populate_message st (sent_message u r txt cid mid))
     ∧ conversationDocs st'
       = conversationDocs st
         ++ [{| conv_id := cid; participants := [u; r]; messages := [mid];
                lastMessage := Some mid; lastMessageTime := now;
                isGroup := false; groupName := None; groupAdmin := None |}]
     ∧ (∀ c, c ∈ conversationDocs st → conv_id c ≠ cid)
     ∧ messageDocs st !! mid = None
     ∧ messageDocs st'
       = <[mid := sent_message u r txt cid mid]> (messageDocs st))
  ∧ ((∃ c, c ∈ conversationDocs st ∧ same_pair (participants c) u r) →
     conv_id <$> conversationDocs st' = conv_id <$> conversationDocs st).
Proof.
  intros Hwf Hdir Hne Hb cid mid.
  assert (∀ c, c ∈ conversationDocs st →
               matches_all [u; r] c = true ↔ same_pair (participants c) u r)
    as Hlookup.
  { intros c Hc. apply lookup_exact_on_direct_chat; [done | by apply Hdir]. }
  destruct (find (matches_all [u; r]) (conversationDocs st)) as [c0|] eqn:Hfind.
  - apply find_elem in Hfind as Hc0. destruct Hc0 as [Hc0 Hm0].
    rewrite sendMessage_accepts, Hfind by done.
    unfold send_into. cbv beta iota zeta. cbn [conversationDocs].
    split; [done|]. split.
    + intros Hnone. destruct (Hnone c0 Hc0). by apply Hlookup.
    + intros _. apply replace_conversation_ids.
  - rewrite sendMessage_first by done. cbv beta iota zeta.
    cbn [conversationDocs messageDocs status json].
    split; [done|]. split.
    + intros _. repeat split.
      * intros c Hc. apply (wf_conv_fresh _ Hwf) in Hc. fold cid in Hc. lia.
      * destruct (messageDocs st !! mid) as [m|] eqn:Hm; [|done].
        apply (wf_msg_fresh _ Hwf) in Hm. unfold mid in Hm. lia.
    + intros (c & Hc & Hsame). apply Hlookup in Hsame; [|done].
      rewrite find_None_elem in Hfind. rewrite (Hfind c Hc) in Hsame. done.
Qed.

Lemma send_creates_conversation_witness :
  conversationDocs
    (sendMessage [(bob, "sB")] carol alice (Some " hi ") 7 store_alice_bob).2
  = [{| conv_id := 0; participants := [alice; bob]; messages := [1];
        lastMessage := Some 1; lastMessageTime := 5;
        isGroup := false; groupName := None; groupAdmin := None |};
     {| conv_id := 2; participants := [carol; alice]; messages := [3];
        lastMessage := Some 3; lastMessageTime := 7;
        isGroup := false; groupName := None; groupAdmin := None |}].
Proof.
  assert (wf_store store_alice_bob) as Hwf
    by apply sendMessage_wf, wf_empty_store.
  assert (direct_only store_alice_bob) as Hdir.
  { intros c Hc. vm_compute in Hc.
    by apply list_elem_of_singleton in Hc as ->. }
  assert (carol ≠ alice) as Hne by done.
  pose proof (send_creates_conversation [(bob, "sB")] store_alice_bob
                carol alice " hi " 7 Hwf Hdir Hne eq_refl) as H.
  destruct (sendMessage [(bob, "sB")] carol alice (Some " hi ") 7
              store_alice_bob) as [[res es] st'].
  destruct H as (_ & H & _). cbn [snd].
  destruct H as (_ & _ & -> & _); [|by vm_compute].
  intros c Hc Hsame. vm_compute in Hc.
  apply list_elem_of_singleton in Hc as ->.
  destruct (Hsame bob) as [HB _]. simpl in HB.
  destruct HB as [HB|HB]; [by right; left | done | done].
Defined.

(** Both hypotheses on the pair matter to the lookup.  A send of [alice]
    to [alice] herself, on the store where she has a conversation with
    [bob], is matched with that conversation, and the note joins it; and a
    conversation of [alice], [bob] and [carol], which no route builds,
    would be matched for [alice] and [bob]. *)
Remark lookup_outside_pairs :
  let st' := (sendMessage [] alice alice (Some "note") 6 store_alice_bob).2 in
  (participants
     <$> find (matches_all [alice; alice]) (conversationDocs store_alice_bob))
  = Some [alice; bob]
  ∧ (λ c, (participants c, messages c)) <$> conversationDocs st'
    = [([alice; bob], [1; 2])]
  ∧ matches_all [alice; bob]
      (new_conversation [alice; bob; carol] 0 0) = true.
Proof. by vm_compute. Qed.

(** *** Further messages into an existing conversation *)

Lemma conv_id_inj cs c d :
  NoDup (conv_id <$> cs) → c ∈ cs → d ∈ cs → conv_id c = conv_id d → c = d.
Proof.
  induction cs as [|x cs IH]; [by intros _ ?%elem_of_nil|].
  rewrite fmap_cons. intros [Hx Hnd]%NoDup_cons Hc Hd Heq.
  apply elem_of_cons in Hc as [->|Hc]; apply elem_of_cons in Hd as [->|Hd].
  - done.
  - exfalso. apply Hx. rewrite Heq. by apply list_elem_of_fmap_2.
  - exfalso. apply Hx. rewrite <- Heq. by apply list_elem_of_fmap_2.
  - by apply IH.
Qed.

Lemma find_fmap_invariant {A} (p : A → bool) (f : A → A) (l : list A) :
  (∀ x, x ∈ l → p (f x) = p x) → find p (f <$> l) = f <$> find p l.
Proof.
  induction l as [|x l IH]; [done|]. intros Hp.
  rewrite fmap_cons. simpl. rewrite Hp by left.
  destruct (p x); [done|]. apply IH. intros y Hy. apply Hp. by right.
Qed.

Lemma find_ext {A} (p q : A → bool) (l : list A) :
  (∀ x, p x = q x) → find p l = find q l.
Proof.
  intros Hpq. induction l as [|x l IH]; simpl; [done|].
  by rewrite Hpq, IH.
Qed.

Lemma find_matches_all_swap u r cs :
  find (matches_all [r; u]) cs = find (matches_all [u; r]) cs.
Proof. apply find_ext. intros c. apply matches_all_swap. Qed.

(** The conversation the lookup returns is the one the append lands in, and
    the lookup returns it again afterwards. *)
Lemma send_into_found reg a b txt now wanted c st :
  wf_store st →
  find (matches_all wanted) (conversationDocs st) = Some c →
  find (matches_all wanted)
    (conversationDocs (send_into reg a b txt now c st).2)
  = Some (with_new_message c (nextId st) now).
Proof.
  intros Hwf Hfind. simpl. unfold replace_conversation.
  pose proof (find_elem _ _ _ Hfind) as [Hc _].
  rewrite find_fmap_invariant, Hfind; simpl.
  - by rewrite decide_True.
  - intros d Hd. destruct (decide _) as [Heq|]; [|done].
    simpl in Heq.
    by rewrite (conv_id_inj _ d c (wf_conv_ids _ Hwf) Hd Hc Heq).
Qed.

Lemma step_send_between w u r c e :
  wf_store (db w) →
  find (matches_all [u; r]) (conversationDocs (db w)) = Some c →
  is_send_between u r e = true →
  ∃ now,
    let '(w', o) := step w e in
    wf_store (db w')
    ∧ userSocketMap w' = userSocketMap w
    ∧ status <$> response o = Some 201
    ∧ sent_id o = Some (nextId (db w))
    ∧ find (matches_all [u; r]) (conversationDocs (db w'))
      = Some (with_new_message c (nextId (db w)) now).
Proof.
  intros Hwf Hfind He. destruct e as [| a b body now | | | | | |]; try done.
  simpl in He. apply andb_true_iff in He as [Hb Hab].
  apply negb_true_iff in Hb. destruct body as [txt|]; [|done].
  assert (find (matches_all [a; b]) (conversationDocs (db w)) = Some c)
    as Hfind'.
  { apply orb_true_iff in Hab as [Hab|Hab];
      apply bool_decide_eq_true in Hab as [-> ->];
      [done | by rewrite find_matches_all_swap]. }
  exists now. unfold step.
  pose proof (sendMessage_wf (userSocketMap w) a b (Some txt) now _ Hwf)
    as Hwf'.
  rewrite sendMessage_accepts, Hfind' in * by done.
  pose proof (send_into_found (userSocketMap w) a b txt now [u; r] c _
                Hwf Hfind) as Hfound.
  destruct (send_into _ _ _ _ _ _ _) as [[res es] st'] eqn:Hsend.
  unfold send_into in Hsend. injection Hsend as <- <- <-.
  split; [exact Hwf'|]. split; [done|]. split; [done|]. split; [done|].
  exact Hfound.
Qed.

(** C6: when the lookup for the pair returns a conversation with message
    list [messages c], any [N] sends between the two users (in either
    direction) with valid bodies are all answered 201 and leave that
    conversation with message list [messages c] followed by the [N] new
    ids, in order: its length is the previous length plus [N], and the
    last-message pointer is the id of the latest message sent. *)
Theorem sends_extend_conversation (w : World) (u r : UserId)
    (c : Conversation) (reqs : list Event) :
  wf_store (db w) →
  find (matches_all [u; r]) (conversationDocs (db w)) = Some c →
  forallb (is_send_between u r) reqs = true →
  let '(w', outs) := run w reqs in
  let ids := omap sent_id outs in
  ∃ c',
    find (matches_all [u; r]) (conversationDocs (db w')) = Some c'
    ∧ conv_id c' = conv_id c
    ∧ participants c' = participants c
    ∧ Forall (λ o, status <$> response o = Some 201) outs
    ∧ length ids = length reqs
    ∧ messages c' = messages c ++ ids
    ∧ length (messages c') = (length (messages c) + length reqs)%nat
    ∧ lastMessage c'
      = match last ids with Some id => Some id | None => lastMessage c end.
Proof.
  revert w c. induction reqs as [|e reqs IH]; intros w c Hwf Hfind Hall.
  - simpl. exists c. rewrite app_nil_r. by repeat split.
  - simpl in Hall. apply andb_true_iff in Hall as [He Hall].
    destruct (step_send_between w u r c e Hwf Hfind He) as [now Hstep].
    simpl. destruct (step w e) as [w1 o].
    destruct Hstep as (Hwf1 & _ & Hst & Hid & Hfind1).
    specialize (IH w1 _ Hwf1 Hfind1 Hall).
    destruct (run w1 reqs) as [w2 outs]. cbv zeta in IH |- *.
    assert (omap sent_id (o :: outs) = nextId (db w) :: omap sent_id outs)
      as -> by (simpl; by rewrite Hid).
    destruct IH as (c' & Hf & Hcid & Hps & Hsts & Hlen & Hmsgs & _ & Hlast).
    exists c'. split; [done|]. split; [done|]. split; [done|].
    split; [by constructor|]. split; [simpl; by rewrite Hlen|].
    assert (messages c' = messages c ++ nextId (db w) :: omap sent_id outs)
      as Hmsgs'.
    { rewrite Hmsgs. simpl. by rewrite <- app_assoc. }
    split; [done|]. split.
    + rewrite Hmsgs', length_app. simpl. rewrite Hlen. lia.
    + rewrite Hlast, last_cons. simpl. by destruct (last _).
Qed.

Lemma sends_extend_conversation_witness :
  let w := mkWorld store_alice_bob [] in
  let reqs := [POST_send bob alice (Some "hello") 8;
               POST_send alice bob (Some " again ") 9] in
  ∃ c', find (matches_all [alice; bob]) (conversationDocs (db (run w reqs).1))
        = Some c'
        ∧ messages c' = [1; 2; 3] ∧ lastMessage c' = Some 3.
Proof.
  intros w reqs.
  assert (wf_store (db w)) as Hwf.
  { apply sendMessage_wf, wf_empty_store. }
  pose proof (sends_extend_conversation w alice bob
                (with_new_message (new_conversation [alice; bob] 5 0) 1 5)
                reqs Hwf eq_refl eq_refl) as H.
  destruct (run w reqs) as [w' outs] eqn:Hrun.
  destruct H as (c' & Hf & _ & _ & _ & _ & Hm & _ & Hl).
  exists c'. split; [exact Hf|].
  assert (omap sent_id outs = [2; 3]) as Hids.
  { apply (f_equal snd) in Hrun. simpl in Hrun. subst outs. by vm_compute. }
  rewrite Hids in Hm, Hl. split; [exact Hm | exact Hl].
Defined.

(** ** Reading and deleting *)

Lemma getMessages_eq v o st :
  getMessages v o st
  = match find (matches_all [v; o]) (conversationDocs st) with
    | None => (mkResponse 200 (JsonMessages []), st)
    | Some c =>
        (mkResponse 200
           (JsonMessages
              (omap (λ id, populate_message st <$> messageDocs st !! id)
                 (messages c))),
         {| userDocs := userDocs st;
            conversationDocs := conversationDocs st;
            messageDocs :=
              read_where (thread_unread (conv_id c) o v) <$> messageDocs st;
            nextId := nextId st |})
    end.
Proof.
  unfold getMessages, db_bind, Conversation_findOne; simpl.
  by destruct (find _ _).
Qed.

Lemma markRead_eq u cid st :
  markRead u cid st
  = (mkResponse 200 (JsonInfo "Messages marked as read"),
     {| userDocs := userDocs st;
        conversationDocs := conversationDocs st;
        messageDocs := read_where (conversation_unread cid u) <$> messageDocs st;
        nextId := nextId st |}).
Proof. done. Qed.

Lemma deleteMessage_eq u mid st :
  deleteMessage u mid st
  = match messageDocs st !! mid with
    | None => (mkResponse 404 (JsonError "Message not found"), st)
    | Some m =>
        if bool_decide (senderId m ≠ u)
        then (mkResponse 403
                (JsonError "Not authorized to delete this message"), st)
        else (mkResponse 200 (JsonInfo "Message deleted successfully"),
              {| userDocs := userDocs st;
                 conversationDocs :=
                   pull_from (conversationId m) mid (conversationDocs st);
                 messageDocs := delete mid (messageDocs st);
                 nextId := nextId st |})
    end.
Proof.
  unfold deleteMessage, db_bind, Message_findById; simpl.
  destruct (messageDocs st !! mid) as [m|]; [|done].
  by destruct (bool_decide _).
Qed.

(** A bulk read-mark touches the read flag only. *)
Lemma read_where_fields f m :
  msg_id (read_where f m) = msg_id m
  ∧ senderId (read_where f m) = senderId m
  ∧ receiverId (read_where f m) = receiverId m
  ∧ message (read_where f m) = message m
  ∧ conversationId (read_where f m) = conversationId m
  ∧ messageType (read_where f m) = messageType m
  ∧ isRead (read_where f m) = (f m || isRead m).
Proof. unfold read_where. by destruct (f m). Qed.

Lemma read_where_wf f st :
  wf_store st →
  wf_store {| userDocs := userDocs st;
              conversationDocs := conversationDocs st;
              messageDocs := read_where f <$> messageDocs st;
              nextId := nextId st |}.
Proof.
  intros [Hnd Hcf Hmk Hmf Hlf Hlo]. split; simpl; try done.
  - intros k m (m0 & <- & Hm0)%lookup_fmap_Some.
    destruct (read_where_fields f m0) as (-> & _). eauto.
  - intros k m (m0 & <- & Hm0)%lookup_fmap_Some. eauto.
  - intros c k m Hc Hk (m0 & <- & Hm0)%lookup_fmap_Some.
    destruct (read_where_fields f m0) as (_ & _ & _ & _ & -> & _). eauto.
Qed.

Lemma getMessages_wf v o st : wf_store st → wf_store (getMessages v o st).2.
Proof.
  intros Hwf. rewrite getMessages_eq. destruct (find _ _); [|done].
  by apply read_where_wf.
Qed.

Lemma markRead_wf u cid st : wf_store st → wf_store (markRead u cid st).2.
Proof. intros Hwf. rewrite markRead_eq. by apply read_where_wf. Qed.

Lemma deleteMessage_wf u mid st :
  wf_store st → wf_store (deleteMessage u mid st).2.
Proof.
  intros Hwf. rewrite deleteMessage_eq.
  destruct (messageDocs st !! mid) as [m|]; [|done].
  destruct (bool_decide _); [done|].
  destruct Hwf as [Hnd Hcf Hmk Hmf Hlf Hlo]. split; simpl.
  - by rewrite pull_from_ids.
  - intros d (d0 & Hd0 & -> & _)%pull_from_elem. eauto.
  - intros k m' [_ Hk]%lookup_delete_Some. eauto.
  - intros k m' [_ Hk]%lookup_delete_Some. eauto.
  - intros d k (d0 & Hd0 & _ & _ & Hsub & _)%pull_from_elem Hk. eauto.
  - intros d k m' (d0 & Hd0 & -> & _ & Hsub & _)%pull_from_elem Hk
      [_ Hm']%lookup_delete_Some. eauto.
Qed.

Lemma step_wf w e : wf_store (db w) → wf_store (db (step w e).1).
Proof.
  intros Hwf. destruct e as [v o|u r body now|u mid|u cid|s q|s t|s t|s];
    unfold step.
  - pose proof (getMessages_wf v o _ Hwf). by destruct (getMessages _ _ _).
  - pose proof (sendMessage_wf (userSocketMap w) u r body now _ Hwf).
    by destruct (sendMessage _ _ _ _ _ _) as [[? ?] ?].
  - pose proof (deleteMessage_wf u mid _ Hwf). by destruct (deleteMessage _ _ _).
  - pose proof (markRead_wf u cid _ Hwf). by destruct (markRead _ _ _).
  - by destruct (on_connection _ _ _).
  - done.
  - done.
  - by destruct (on_disconnect _ _).
Qed.

Lemma run_wf w es : wf_store (db w) → wf_store (db (run w es).1).
Proof.
  revert w. induction es as [|e es IH]; intros w Hwf; simpl; [done|].
  pose proof (step_wf w e Hwf) as H1. destruct (step w e) as [w1 o].
  specialize (IH w1 H1). by destruct (run w1 es).
Qed.

(** Every world reachable from the initial one keeps the invariants. *)
Lemma reachable_wf es : wf_store (db (run initial_world es).1).
Proof. apply run_wf, wf_empty_store. Qed.

Lemma thread_unread_true cid o v m :
  thread_unread cid o v m = true
  ↔ conversationId m = cid ∧ senderId m = o ∧ receiverId m = v
    ∧ isRead m = false.
Proof.
  unfold thread_unread. rewrite !andb_true_iff, !bool_decide_eq_true.
  tauto.
Qed.

Lemma conversation_unread_true cid u m :
  conversation_unread cid u m = true
  ↔ conversationId m = cid ∧ receiverId m = u ∧ isRead m = false.
Proof.
  unfold conversation_unread. rewrite !andb_true_iff, !bool_decide_eq_true.
  tauto.
Qed.

Lemma read_where_lookup f (ms : gmap N Message) k m :
  ms !! k = Some m →
  (f m = true → (read_where f <$> ms) !! k = Some (mark_read m))
  ∧ (f m ≠ true → (read_where f <$> ms) !! k = Some m).
Proof.
  intros Hm. rewrite lookup_fmap, Hm; simpl. unfold read_where.
  split; intros Hf; destruct (f m); done.
Qed.

(** C4: the thread route always answers 200.  When no stored conversation
    has both users among its participants the answer is the empty sequence
    and the store is untouched.  Otherwise, with [c] the conversation the
    lookup returns, the only change to the store is that every stored
    message of [c] with sender [o], receiver [v] and [isRead = false] now
    has [isRead = true]; every other message is as before. *)
Theorem fetch_thread_marks_read (st : Store) (v o : UserId) :
  let '(res, st') := getMessages v o st in
  status res = 200
  ∧ ((∀ c, c ∈ conversationDocs st →
           ¬ (v ∈ participants c ∧ o ∈ participants c)) →
     json res = JsonMessages [] ∧ st' = st)
  ∧ (∀ c, find (matches_all [v; o]) (conversationDocs st) = Some c →
          userDocs st' = userDocs st
          ∧ conversationDocs st' = conversationDocs st
          ∧ nextId st' = nextId st
          ∧ (∀ k, messageDocs st !! k = None → messageDocs st' !! k = None)
          ∧ (∀ k m, messageDocs st !! k = Some m →
                (conversationId m = conv_id c ∧ senderId m = o
                 ∧ receiverId m = v ∧ isRead m = false →
                 messageDocs st' !! k = Some (mark_read m)
                 ∧ isRead (mark_read m) = true)
                ∧ (¬ (conversationId m = conv_id c ∧ senderId m = o
                      ∧ receiverId m = v ∧ isRead m = false) →
                   messageDocs st' !! k = Some m))).
Proof.
  rewrite getMessages_eq.
  destruct (find _ _) as [c|] eqn:Hfind; simpl.
  - split; [done|]. split.
    + intros Hnone. exfalso. apply find_elem in Hfind as [Hc Hm].
      apply matches_all_pair in Hm. by apply (Hnone c).
    + intros c' [= <-]. do 3 (split; [done|]). split.
      * intros k Hk. by rewrite lookup_fmap, Hk.
      * intros k m Hm.
        destruct (read_where_lookup (thread_unread (conv_id c) o v) _ _ _ Hm)
          as [Hyes Hno].
        rewrite thread_unread_true in Hyes, Hno. split; [|done].
        intros Hu. split; [by apply Hyes | done].
  - by repeat split.
Qed.

Lemma fetch_thread_marks_read_witness :
  json (getMessages alice carol store_alice_bob).1 = JsonMessages []
  ∧ (getMessages alice carol store_alice_bob).2 = store_alice_bob
  ∧ (isRead <$> messageDocs store_alice_bob !! 1) = Some false
  ∧ (isRead <$> messageDocs (getMessages bob alice store_alice_bob).2 !! 1)
    = Some true.
Proof.
  pose proof (fetch_thread_marks_read store_alice_bob alice carol) as H1.
  pose proof (fetch_thread_marks_read store_alice_bob bob alice) as H2.
  destruct (getMessages alice carol store_alice_bob) as [r1 s1].
  destruct (getMessages bob alice store_alice_bob) as [r2 s2].
  destruct H1 as (_ & H1 & _). destruct H2 as (_ & _ & H2).
  destruct H1 as [H1 H1'].
  { intros c Hc [_ Hcarol]. vm_compute in Hc.
    apply list_elem_of_singleton in Hc. subst c. simpl in Hcarol.
    apply elem_of_cons in Hcarol as [Hcarol|Hcarol]; [done|].
    apply elem_of_cons in Hcarol as [Hcarol|Hcarol]; [done|].
    by apply elem_of_nil in Hcarol. }
  destruct (H2 _ eq_refl) as (_ & _ & _ & _ & H2').
  destruct (H2' 1 (sent_message alice bob "hi" 0 1) eq_refl) as [H2y _].
  destruct H2y as [H2y _]; [done|].
  simpl. rewrite H2y. by repeat split.
Defined.

(** C7: the read route flips [isRead] to [true] exactly on the stored
    messages with [conversationId = cid], [receiverId = u] and
    [isRead = false], changes nothing else, and a second call right after
    the first leaves the store exactly as the first call left it. *)
Theorem markRead_idempotent (st : Store) (u : UserId) (cid : ObjectId) :
  let '(res1, st1) := markRead u cid st in
  let '(res2, st2) := markRead u cid st1 in
  st2 = st1
  ∧ status res1 = 200 ∧ status res2 = 200
  ∧ userDocs st1 = userDocs st
  ∧ conversationDocs st1 = conversationDocs st
  ∧ nextId st1 = nextId st
  ∧ (∀ k, messageDocs st !! k = None → messageDocs st1 !! k = None)
  ∧ (∀ k m, messageDocs st !! k = Some m →
        (conversationId m = cid ∧ receiverId m = u ∧ isRead m = false →
         messageDocs st1 !! k = Some (mark_read m)
         ∧ isRead (mark_read m) = true)
        ∧ (¬ (conversationId m = cid ∧ receiverId m = u
              ∧ isRead m = false) →
           messageDocs st1 !! k = Some m)).
Proof.
  rewrite !markRead_eq. simpl. split.
  - f_equal. rewrite <- map_fmap_compose. apply map_fmap_ext.
    intros k m _. simpl. unfold read_where.
    destruct (conversation_unread cid u m) eqn:Hf; [|by rewrite Hf].
    rewrite (not_true_is_false (conversation_unread cid u (mark_read m)));
      [done|].
    rewrite conversation_unread_true. simpl. by intros (_ & _ & ?).
  - do 5 (split; [done|]). split.
    + intros k Hk. by rewrite lookup_fmap, Hk.
    + intros k m Hm.
      destruct (read_where_lookup (conversation_unread cid u) _ _ _ Hm)
        as [Hyes Hno].
      rewrite conversation_unread_true in Hyes, Hno. split; [|done].
      intros Hu. split; [by apply Hyes | done].
Qed.

Lemma markRead_idempotent_witness :
  let st1 := (markRead bob 0 store_alice_bob).2 in
  (isRead <$> messageDocs store_alice_bob !! 1) = Some false
  ∧ (isRead <$> messageDocs st1 !! 1) = Some true
  ∧ (markRead bob 0 st1).2 = st1
  ∧ (markRead alice 0 store_alice_bob).2 = store_alice_bob.
Proof.
  intros st1. unfold st1.
  pose proof (markRead_idempotent store_alice_bob bob 0) as H1.
  destruct (markRead bob 0 store_alice_bob) as [r1 s1]. cbn [snd].
  destruct (markRead bob 0 s1) as [r1' s1']. cbn [snd].
  destruct H1 as (H1 & _ & _ & _ & _ & _ & _ & H1').
  destruct (H1' 1 (sent_message alice bob "hi" 0 1) eq_refl) as [H1y _].
  destruct H1y as [H1y _]; [done|].
  split; [by vm_compute|]. split; [by rewrite H1y|]. split; [done|].
  by vm_compute.
Defined.

(** C9: the thread route answers with the documents as they were populated
    before its own read-marking.  A listed message from [o] to [v] that is
    unread when the fetch starts is in the answer with [isRead = false],
    while the store the fetch leaves has it with [isRead = true]; the next
    fetch answers it with [isRead = true]. *)
Theorem fetch_returns_flags_before_marking (st : Store) (v o : UserId)
    (c : Conversation) (k : ObjectId) (m : Message) :
  wf_store st →
  find (matches_all [v; o]) (conversationDocs st) = Some c →
  k ∈ messages c → messageDocs st !! k = Some m →
  senderId m = o → receiverId m = v → isRead m = false →
  let '(res1, st1) := getMessages v o st in
  let '(res2, st2) := getMessages v o st1 in
  ∃ ms1 ms2,
    json res1 = JsonMessages ms1 ∧ json res2 = JsonMessages ms2
    ∧ ms1 = omap (λ id, populate_message st <$> messageDocs st !! id)
              (messages c)
    ∧ populate_message st m ∈ ms1
    ∧ (∀ pm, pm ∈ ms1 → msg_id (doc pm) = k → isRead (doc pm) = false)
    ∧ messageDocs st1 !! k = Some (mark_read m)
    ∧ populate_message st1 (mark_read m) ∈ ms2
    ∧ (∀ pm, pm ∈ ms2 → msg_id (doc pm) = k → isRead (doc pm) = true).
Proof.
  intros Hwf Hfind Hk Hm Hs Hr Hunread.
  pose proof (find_elem _ _ _ Hfind) as [Hc _].
  assert (thread_unread (conv_id c) o v m = true) as Hf.
  { apply thread_unread_true. repeat split; try done.
    by apply (wf_listed_owner _ Hwf c k). }
  rewrite getMessages_eq, Hfind. rewrite getMessages_eq; simpl.
  rewrite Hfind.
  assert ((read_where (thread_unread (conv_id c) o v) <$> messageDocs st)
          !! k = Some (mark_read m)) as Hm1.
  { destruct (read_where_lookup (thread_unread (conv_id c) o v) _ _ _ Hm)
      as [Hyes _]. by apply Hyes. }
  eexists _, _. split; [done|]. split; [done|]. split; [done|].
  split; [|split; [|split; [|split]]].
  - apply list_elem_of_omap. exists k. by rewrite Hm.
  - intros pm (id & Hid & Hpm)%list_elem_of_omap Hpk.
    destruct (messageDocs st !! id) as [m'|] eqn:Hm'; [|done].
    injection Hpm as <-. simpl in *.
    rewrite (wf_msg_key _ Hwf _ _ Hm') in Hpk. subst id. congruence.
  - done.
  - apply list_elem_of_omap. exists k. split; [done|]. by rewrite Hm1.
  - intros pm (id & Hid & Hpm)%list_elem_of_omap Hpk.
    destruct (_ !! id) as [m'|] eqn:Hm'; [|done].
    injection Hpm as <-. simpl in *.
    pose proof (wf_msg_key _ (read_where_wf
                                (thread_unread (conv_id c) o v) _ Hwf)
                  _ _ Hm') as Hkey.
    rewrite Hkey in Hpk. subst id.
    by injection (eq_trans (eq_sym Hm') Hm1) as ->.
Qed.

Lemma fetch_returns_flags_before_marking_witness :
  let st := (sendMessage [] alice bob (Some "hi") 5 empty_store).2 in
  let '(res1, st1) := getMessages bob alice st in
  let '(res2, st2) := getMessages bob alice st1 in
  ∃ ms1 ms2,
    json res1 = JsonMessages ms1 ∧ json res2 = JsonMessages ms2
    ∧ (isRead ∘ doc) <$> ms1 = [false]
    ∧ (isRead <$> messageDocs st1 !! 1) = Some true
    ∧ (isRead ∘ doc) <$> ms2 = [true].
Proof.
  intros st.
  assert (wf_store st) as Hwf by apply sendMessage_wf, wf_empty_store.
  pose proof (fetch_returns_flags_before_marking st bob alice
                (with_new_message (new_conversation [alice; bob] 5 0) 1 5)
                1 (sent_message alice bob "hi" 0 1) Hwf eq_refl) as H.
  destruct (getMessages bob alice st) as [res1 st1] eqn:H1.
  destruct (getMessages bob alice st1) as [res2 st2] eqn:H2.
  destruct H as (ms1 & ms2 & Hj1 & Hj2 & _ & _ & _ & Hst1 & _); try done.
  - by left.
  - exists ms1, ms2. split; [done|]. split; [done|].
    assert (res1 = (getMessages bob alice st).1) as Hr1 by by rewrite H1.
    assert (st1 = (getMessages bob alice st).2) as Hs1 by by rewrite H1.
    assert (res2 = (getMessages bob alice (getMessages bob alice st).2).1) as Hr2
      by by rewrite <- Hs1, H2.
    rewrite Hr1 in Hj1. rewrite Hr2 in Hj2.
    vm_compute in Hj1. vm_compute in Hj2.
    injection Hj1 as <-. injection Hj2 as <-.
    split; [done|]. split; [|done]. by rewrite Hst1.
Defined.

(** *** Deleting a message *)

Lemma sendMessage_messages reg u r txt now st :
  content_missing (Some txt) = false →
  ∃ cid mid,
    nextId st ≤ mid
    ∧ messageDocs (sendMessage reg u r (Some txt) now st).2
      = <[mid := sent_message u r txt cid mid]> (messageDocs st)
    ∧ nextId (sendMessage reg u r (Some txt) now st).2 = N.succ mid
    ∧ json (sendMessage reg u r (Some txt) now st).1.1
      = JsonMessage (populate_message st (sent_message u r txt cid mid)).
Proof.
  intros Hb. rewrite sendMessage_accepts by done.
  destruct (find _ _) as [c|].
  - exists (conv_id c), (nextId st). simpl. repeat split; [lia|done..].
  - rewrite Conversation_create_eq.
    exists (nextId st), (N.succ (nextId st)). simpl.
    repeat split; [lia|done..].
Qed.

Lemma step_gone mid w e :
  wf_store (db w) → gone mid (db w) →
  gone mid (db (step w e).1) ∧ mid ∉ thread_ids (step w e).2.
Proof.
  intros Hwf [Hmid Hlt]. unfold gone.
  destruct e as [v o|u r body now|u k|u cid|s q|s t|s t|s]; unfold step.
  - rewrite getMessages_eq. destruct (find _ _) as [c|]; simpl.
    + split; [split; [by rewrite lookup_fmap, Hmid | done]|].
      intros (pm & Hpm & (id & Hid & Hlook)%list_elem_of_omap)%list_elem_of_fmap.
      destruct (messageDocs (db w) !! id) as [m|] eqn:Hm; [|done].
      injection Hlook as <-. simpl in Hpm.
      rewrite (wf_msg_key _ Hwf _ _ Hm) in Hpm. congruence.
    + split; [done | apply not_elem_of_nil].
  - destruct (content_missing body) eqn:Hb.
    + rewrite sendMessage_rejects by done. simpl.
      split; [done | apply not_elem_of_nil].
    + destruct body as [txt|]; [|done].
      destruct (sendMessage_messages (userSocketMap w) u r txt now (db w) Hb)
        as (cid & mid' & Hle & Hmsgs & Hnext & Hjson).
      destruct (sendMessage _ _ _ _ _ _) as [[res es] st']. simpl in *.
      unfold thread_ids; simpl. rewrite Hjson.
      split; [|apply not_elem_of_nil]. split.
      * rewrite Hmsgs, lookup_insert_ne by lia. done.
      * lia.
  - rewrite deleteMessage_eq.
    destruct (messageDocs (db w) !! k) as [m|]; simpl;
      [destruct (bool_decide _); simpl|];
      (split; [|apply not_elem_of_nil]); try done.
    split; [|done]. simpl. apply lookup_delete_None. by right.
  - rewrite markRead_eq. simpl. split; [|apply not_elem_of_nil].
    split; [by rewrite lookup_fmap, Hmid | done].
  - destruct (on_connection _ _ _). simpl. split; [done|apply not_elem_of_nil].
  - simpl. split; [done|apply not_elem_of_nil].
  - simpl. split; [done|apply not_elem_of_nil].
  - destruct (on_disconnect _ _). simpl. split; [done|apply not_elem_of_nil].
Qed.

Lemma run_gone mid w es :
  wf_store (db w) → gone mid (db w) →
  ∀ o, o ∈ (run w es).2 → mid ∉ thread_ids o.
Proof.
  revert w. induction es as [|e es IH]; intros w Hwf Hgone o; simpl.
  - by intros ?%elem_of_nil.
  - pose proof (step_wf w e Hwf) as Hwf1.
    destruct (step_gone mid w e Hwf Hgone) as [Hgone1 Hout].
    destruct (step w e) as [w1 o1]. simpl in *.
    specialize (IH w1 Hwf1 Hgone1). destruct (run w1 es) as [w2 os].
    simpl in *. intros [->|Ho]%elem_of_cons; [done | by apply IH].
Qed.

(** C3: deleting message [mid] on behalf of [u] answers 404 when no such
    message is stored and 403 when its sender is not [u], the store being
    left as it was in both cases.  Otherwise it answers 200, the message
    record is removed and [mid] is pulled from the message list of the
    conversation the message names (no conversation lists it any more), and
    whatever requests and socket events follow, no thread answer ever
    carries a message with id [mid]. *)
Theorem delete_message (st : Store) (u : UserId) (mid : ObjectId) :
  wf_store st →
  let '(res, st') := deleteMessage u mid st in
  (messageDocs st !! mid = None → status res = 404 ∧ st' = st)
  ∧ (∀ m, messageDocs st !! mid = Some m → senderId m ≠ u →
          status res = 403 ∧ st' = st)
  ∧ (∀ m, messageDocs st !! mid = Some m → senderId m = u →
          status res = 200
          ∧ messageDocs st' = delete mid (messageDocs st)
          ∧ messageDocs st' !! mid = None
          ∧ conversationDocs st'
            = pull_from (conversationId m) mid (conversationDocs st)
          ∧ (∀ c, c ∈ conversationDocs st' → mid ∉ messages c)
          ∧ userDocs st' = userDocs st ∧ nextId st' = nextId st
          ∧ ∀ reg evs o,
              o ∈ (run (mkWorld st' reg) evs).2 → mid ∉ thread_ids o).
Proof.
  intros Hwf. pose proof (deleteMessage_wf u mid st Hwf) as Hwf'.
  rewrite deleteMessage_eq in *.
  destruct (messageDocs st !! mid) as [m|] eqn:Hm.
  - destruct (bool_decide (senderId m ≠ u)) eqn:Hs; simpl.
    + apply bool_decide_eq_true in Hs.
      split; [done|]. split; [by intros m' [= <-] _|].
      by intros m' [= <-] Heq.
    + apply bool_decide_eq_false in Hs.
      split; [done|]. split; [by intros m' [= <-] Hne|].
      intros m' [= <-] _. do 2 (split; [done|]).
      split; [apply lookup_delete_eq|]. split; [done|]. split.
      * intros c (d0 & Hd0 & _ & _ & Hsub & Hpull)%pull_from_elem Hin.
        apply Hpull; [|done]. symmetry.
        apply (wf_listed_owner _ Hwf d0 mid m); auto.
      * do 2 (split; [done|]). intros reg evs o.
        apply run_gone; [done|]. split; simpl.
        -- apply lookup_delete_eq.
        -- by apply (wf_msg_fresh _ Hwf mid m).
  - simpl. split; [done|]. split; by intros m.
Qed.

Lemma delete_message_witness :
  let st := (sendMessage [] alice bob (Some "hi") 5 empty_store).2 in
  status (deleteMessage bob 1 st).1 = 403
  ∧ status (deleteMessage alice 7 st).1 = 404
  ∧ status (deleteMessage alice 1 st).1 = 200
  ∧ messages <$> conversationDocs (deleteMessage alice 1 st).2 = [[]]
  ∧ thread_ids <$> (run (mkWorld (deleteMessage alice 1 st).2 [])
                      [GET_messages bob alice]).2 = [[]].
Proof.
  intros st.
  assert (wf_store st) as Hwf by apply sendMessage_wf, wf_empty_store.
  pose proof (delete_message st bob 1 Hwf) as HB.
  pose proof (delete_message st alice 7 Hwf) as H7.
  pose proof (delete_message st alice 1 Hwf) as HA.
  destruct (deleteMessage bob 1 st) as [resB stB].
  destruct (deleteMessage alice 7 st) as [res7 st7].
  destruct (deleteMessage alice 1 st) as [resA stA] eqn:HdA.
  destruct HB as (_ & HB & _). destruct H7 as (H7 & _ & _).
  destruct HA as (_ & _ & HA).
  destruct (HB (sent_message alice bob "hi" 0 1) eq_refl) as [HB1 _]; [done|].
  destruct (H7 eq_refl) as [H71 _].
  destruct (HA (sent_message alice bob "hi" 0 1) eq_refl eq_refl)
    as (HA1 & _ & _ & HA2 & _).
  simpl. split; [done|]. split; [done|]. split; [done|].
  rewrite HA2. assert (stA = (deleteMessage alice 1 st).2) as -> by by rewrite HdA.
  split; by vm_compute.
Defined.

Lemma conversation_of_pull st id id' mid :
  find (λ d, bool_decide (conv_id d = id))
    (pull_from id' mid (conversationDocs st))
  = (λ d, if decide (conv_id d = id') then pull_message mid d else d)
    <$> conversation_of st id.
Proof.
  unfold pull_from, conversation_of. apply find_fmap_invariant.
  intros d _. by destruct (decide (conv_id d = id')).
Qed.

(** C10: a successful deletion changes, in the conversation the message
    names, the message list and nothing else: [lastMessage] and
    [lastMessageTime] keep their values.  So when the deleted message was
    the most recent one, [lastMessage] still holds its id, an id no
    message record has any more. *)
Theorem delete_keeps_last_message (st : Store) (u : UserId)
    (mid : ObjectId) (m : Message) (c : Conversation) :
  messageDocs st !! mid = Some m → senderId m = u →
  conversation_of st (conversationId m) = Some c →
  let '(res, st') := deleteMessage u mid st in
  status res = 200
  ∧ ∃ c', conversation_of st' (conversationId m) = Some c'
          ∧ c' = pull_message mid c
          ∧ messages c' = filter (λ x, x ≠ mid) (messages c)
          ∧ lastMessage c' = lastMessage c
          ∧ lastMessageTime c' = lastMessageTime c
          ∧ conv_id c' = conv_id c
          ∧ participants c' = participants c
          ∧ isGroup c' = isGroup c
          ∧ groupName c' = groupName c
          ∧ groupAdmin c' = groupAdmin c
          ∧ (lastMessage c = Some mid →
             lastMessage c' = Some mid ∧ messageDocs st' !! mid = None).
Proof.
  intros Hm Hs Hc. rewrite deleteMessage_eq, Hm.
  rewrite bool_decide_false by (by intros ?). simpl. split; [done|].
  exists (pull_message mid c). split.
  - unfold conversation_of at 1; simpl.
    rewrite conversation_of_pull, Hc; simpl.
    apply find_elem in Hc as [_ Hid]. apply bool_decide_eq_true in Hid.
    by rewrite decide_True.
  - do 9 (split; [done|]). intros Hlast. split; [done|].
    apply lookup_delete_eq.
Qed.

Lemma delete_keeps_last_message_witness :
  let st := (sendMessage [] alice bob (Some "hi") 5 empty_store).2 in
  let st' := (deleteMessage alice 1 st).2 in
  (lastMessage <$> conversation_of st 0) = Some (Some 1)
  ∧ (lastMessage <$> conversation_of st' 0) = Some (Some 1)
  ∧ (lastMessageTime <$> conversation_of st' 0) = Some 5
  ∧ (messages <$> conversation_of st' 0) = Some []
  ∧ messageDocs st' !! 1 = None.
Proof.
  intros st st'.
  pose proof (delete_keeps_last_message st alice 1
                (sent_message alice bob "hi" 0 1)
                (with_new_message (new_conversation [alice; bob] 5 0) 1 5)
                eq_refl eq_refl eq_refl) as H.
  unfold st'. destruct (deleteMessage alice 1 st) as [res st1].
  destruct H as (_ & c' & Hc' & -> & _ & _ & _ & _ & _ & _ & _ & _ & Hl).
  destruct (Hl eq_refl) as [_ Hgone].
  cbn [conversationId sent_message] in Hc'. cbn [snd]. rewrite Hc'.
  split; [by vm_compute|]. by repeat split.
Defined.

(** ** Every conversation the routes build has two participants *)

Lemma step_direct_only w e :
  direct_only (db w) → direct_only (db (step w e).1).
Proof.
  intros Hd. destruct e as [v o|u r body now|u k|u cid|s q|s t|s t|s];
    unfold step.
  - rewrite getMessages_eq. by destruct (find _ _).
  - destruct (content_missing body) eqn:Hb.
    + by rewrite sendMessage_rejects.
    + destruct body as [txt|]; [|done].
      rewrite sendMessage_accepts by done.
      destruct (find _ _) as [c|] eqn:Hfind; simpl.
      * apply find_elem in Hfind as [Hc _].
        intros d [[-> _]|[Hd0 _]]%replace_conversation_elem; [|by apply Hd].
        simpl. by apply Hd.
      * intros d [[-> _]|[Hd0 _]]%replace_conversation_elem; [done|].
        apply elem_of_app in Hd0 as [Hd0| ->%list_elem_of_singleton];
          [by apply Hd | done].
  - rewrite deleteMessage_eq. destruct (_ !! k) as [m|]; [|done].
    destruct (bool_decide _); [done|]. simpl.
    intros d (d0 & Hd0 & _ & -> & _)%pull_from_elem. by apply Hd.
  - by rewrite markRead_eq.
  - by destruct (on_connection _ _ _).
  - done.
  - done.
  - by destruct (on_disconnect _ _).
Qed.

Lemma reachable_direct_only es : direct_only (db (run initial_world es).1).
Proof.
  assert (∀ w, direct_only (db w) → direct_only (db (run w es).1)) as H.
  { induction es as [|e es IH]; intros w Hd; simpl; [done|].
    pose proof (step_direct_only w e Hd) as H1.
    destruct (step w e) as [w1 o]. specialize (IH w1 H1).
    by destruct (run w1 es). }
  apply H. by intros c ?%elem_of_nil.
Qed.

(** ** Reachable registries *)

Lemma step_registry_wf w e :
  JS.wf (userSocketMap w) → JS.wf (userSocketMap (step w e).1).
Proof.
  intros Hwf. destruct e as [v o|u r body now|u k|u cid|s q|s t|s t|s];
    unfold step.
  - by destruct (getMessages _ _ _).
  - by destruct (sendMessage _ _ _ _ _ _) as [[? ?] ?].
  - by destruct (deleteMessage _ _ _).
  - by destruct (markRead _ _ _).
  - pose proof (on_connection_wf s q _ Hwf). by destruct (on_connection _ _ _).
  - done.
  - done.
  - pose proof (on_disconnect_wf s _ Hwf). by destruct (on_disconnect _ _).
Qed.

Lemma reachable_registry_wf es : JS.wf (userSocketMap (run initial_world es).1).
Proof.
  assert (∀ w, JS.wf (userSocketMap w) → JS.wf (userSocketMap (run w es).1))
    as H.
  { induction es as [|e es IH]; intros w Hw; simpl; [done|].
    pose proof (step_registry_wf w e Hw) as H1.
    destruct (step w e) as [w1 o]. specialize (IH w1 H1).
    by destruct (run w1 es). }
  apply H. apply wf_nil.
Qed.

(** ** Trimming, on examples *)

Example trim_both_ends : JS.trim "  hi there  " = "hi there".
Proof. reflexivity. Qed.

Example trim_tab_space :
  JS.trim (String (ascii_of_N 9) (String (ascii_of_N 32) "")) = "".
Proof. reflexivity. Qed.

(** White space beyond ASCII is stripped, and the bytes of a letter are
    not taken for it: the second byte of "à" is 0xA0. *)
Example trim_unicode :
  JS.trim (JS.utf8 0x2003 +:+ JS.utf8 0xFEFF +:+ "voilà" +:+ JS.utf8 0xA0
           +:+ JS.utf8 0x3000)
  = "voilà".
Proof. by vm_compute. Qed.

Example trim_keeps_letters : JS.trim "voilà" = "voilà".
Proof. by vm_compute. Qed.

Example blank_is_rejected :
  (sendMessage [] alice bob (Some "   ") 1 empty_store).1.1
  = mkResponse 400 (JsonError "Message content is required").
Proof. reflexivity. Qed.

Example unicode_blank_is_rejected :
  (sendMessage [] alice bob (Some (JS.utf8 0x2003 +:+ JS.utf8 0x3000)) 1
     empty_store).1.1
  = mkResponse 400 (JsonError "Message content is required").
Proof. by vm_compute. Qed.

(** ** The conversation list *)

#[global] Instance newer_first_total : Total newer_first.
Proof. intros c d. unfold newer_first. lia. Qed.

#[global] Instance newer_first_trans : Transitive newer_first.
Proof. intros c d e. unfold newer_first. lia. Qed.

Lemma getConversations_eq u st :
  getConversations u st
  = (mkListResponse 200
       (format_conversation st u
        <$> merge_sort newer_first
              (filter (λ c, u ∈ participants c) (conversationDocs st))),
     st).
Proof. done. Qed.

(** The conversations of [u] and the entries of [u]'s list correspond. *)
Lemma listed_iff u st s :
  s ∈ list_json (getConversations u st).1
  ↔ ∃ c, c ∈ conversationDocs st ∧ u ∈ participants c
         ∧ s = format_conversation st u c.
Proof.
  rewrite getConversations_eq; simpl. rewrite list_elem_of_fmap. split.
  - intros (c & -> & Hc). rewrite merge_sort_Permutation in Hc.
    apply list_elem_of_filter in Hc as [Hu Hc]. eauto.
  - intros (c & Hc & Hu & ->). exists c. split; [done|].
    rewrite merge_sort_Permutation. by apply list_elem_of_filter.
Qed.

(** X1: the list route answers 200 and leaves the store as it was; its
    entries are the stored conversations that have the caller among their
    participants, each once, ordered by [lastMessageTime] from the most
    recent to the oldest. *)
Theorem conversation_list_sorted (st : Store) (u : UserId) :
  let '(res, st') := getConversations u st in
  st' = st
  ∧ list_status res = 200
  ∧ (∃ cs, list_json res = format_conversation st u <$> cs
           ∧ cs ≡ₚ filter (λ c, u ∈ participants c) (conversationDocs st))
  ∧ summary_id <$> list_json res
    ≡ₚ conv_id <$> filter (λ c, u ∈ participants c) (conversationDocs st)
  ∧ StronglySorted
      (λ a b, summary_lastMessageTime b ≤ summary_lastMessageTime a)
      (list_json res).
Proof.
  rewrite getConversations_eq. simpl.
  split; [done|]. split; [done|]. split; [|split].
  - eexists. split; [done|]. apply merge_sort_Permutation.
  - rewrite <- list_fmap_compose.
    by rewrite (merge_sort_Permutation newer_first).
  - apply (StronglySorted_fmap _ newer_first); [done|].
    apply StronglySorted_merge_sort; apply _.
Qed.

Lemma find_other_first (u o : UserId) (pu po : UserProjection) :
  o ≠ u →
  find (λ p, bool_decide (user_id p ≠ u))
    [mkPopulatedUser u pu; mkPopulatedUser o po]
  = Some (mkPopulatedUser o po).
Proof.
  intros Hne. simpl. rewrite bool_decide_false by (by intros ?).
  by rewrite bool_decide_true.
Qed.

(** The participant shown for a conversation of the caller and one other
    user. *)
Lemma format_other_participant st u o c :
  (participants c = [u; o] ∨ participants c = [o; u]) → o ≠ u →
  participant (format_conversation st u c)
  = mkPopulatedUser o <$> userDocs st !! o.
Proof.
  intros Hps Hne. unfold format_conversation, populate_participants; simpl.
  destruct Hps as [-> | ->]; simpl;
    destruct (userDocs st !! u) as [pu|], (userDocs st !! o) as [po|];
    simpl; rewrite ?(bool_decide_false (u ≠ u)) by (by intros ?);
    rewrite ?(bool_decide_true (o ≠ u)) by done; done.
Qed.



(** ** What a send leaves behind *)

(** A send that passes the validation is the append [send_into] on a
    conversation that the lookup returns, found or just created. *)
Lemma sendMessage_resolved reg u r txt now st :
  wf_store st → content_missing (Some txt) = false →
  ∃ c st0,
    sendMessage reg u r (Some txt) now st = send_into reg u r txt now c st0
    ∧ wf_store st0
    ∧ find (matches_all [u; r]) (conversationDocs st0) = Some c
    ∧ userDocs st0 = userDocs st
    ∧ messageDocs st0 = messageDocs st
    ∧ nextId st ≤ nextId st0
    ∧ (conversationDocs st0 = conversationDocs st
       ∨ conversationDocs st0 = conversationDocs st ++ [c]
         ∧ c = new_conversation [u; r] now (nextId st)
         ∧ find (matches_all [u; r]) (conversationDocs st) = None).
Proof.
  intros Hwf Hb. rewrite sendMessage_accepts by done.
  destruct (find _ _) as [c|] eqn:Hfind.
  - exists c, st. split; [done|]. split; [done|]. split; [done|].
    do 2 (split; [done|]). split; [lia | by left].
  - rewrite Conversation_create_eq.
    eexists _, _. split; [done|]. split.
    { pose proof (Conversation_create_wf [u; r] now st Hwf) as H.
      by rewrite Conversation_create_eq in H. }
    simpl. split.
    { rewrite find_app_None by done. cbn [find].
      rewrite (proj2 (matches_all_pair u r _)); [done|].
      simpl. split; [left | right; left]. }
    do 2 (split; [done|]). split; [lia|]. right. by repeat split.
Qed.

(** X3: a send that passes the validation stores the message it answers
    with, unread and with the trimmed text; it emits nothing when the
    receiver has no entry in the registry, and otherwise exactly one
    [newMessage], addressed to the receiver's socket and carrying the very
    object of the answer. *)
Theorem send_pushes_to_receiver (reg : JS.object string) (u r : UserId)
    (txt : string) (now : Time) (st : Store) :
  content_missing (Some txt) = false →
  let '((res, es), st') := sendMessage reg u r (Some txt) now st in
  ∃ pm, status res = 201 ∧ json res = JsonMessage pm
        ∧ messageDocs st' !! msg_id (doc pm) = Some (doc pm)
        ∧ senderId (doc pm) = u ∧ receiverId (doc pm) = r
        ∧ message (doc pm) = JS.trim txt ∧ isRead (doc pm) = false
        ∧ (JS.get reg r = None → es = [])
        ∧ (∀ h, JS.get reg r = Some h → JS.truthy h = true →
                es = [io_to_emit h "newMessage" (NewMessage pm)]).
Proof.
  intros Hb. rewrite sendMessage_accepts by done.
  assert (∀ c st0,
            let '((res, es), st') := send_into reg u r txt now c st0 in
            ∃ pm, status res = 201 ∧ json res = JsonMessage pm
              ∧ messageDocs st' !! msg_id (doc pm) = Some (doc pm)
              ∧ senderId (doc pm) = u ∧ receiverId (doc pm) = r
              ∧ message (doc pm) = JS.trim txt ∧ isRead (doc pm) = false
              ∧ (JS.get reg r = None → es = [])
              ∧ (∀ h, JS.get reg r = Some h → JS.truthy h = true →
                      es = [io_to_emit h "newMessage" (NewMessage pm)])) as H.
  { intros c st0. unfold send_into, getReceiverSocketId. eexists.
    split; [done|]. split; [done|]. simpl.
    split; [apply lookup_insert_eq|]. do 4 (split; [done|]). split.
    - intros ->. done.
    - intros h -> Hh. by rewrite emit_if_Some. }
  destruct (find _ _) as [c|]; [apply H|].
  rewrite Conversation_create_eq. apply H.
Qed.

Lemma send_pushes_to_receiver_witness :
  (sendMessage [(bob, "sB")] alice bob (Some " hi ") 5 empty_store).1.2
  = [io_to_emit "sB" "newMessage"
       (NewMessage
          (mkPopulated (sent_message alice bob " hi " 0 1) None None))]
  ∧ (sendMessage [(alice, "sA")] alice bob (Some " hi ") 5 empty_store).1.2
    = [].
Proof.
  pose proof (send_pushes_to_receiver [(bob, "sB")] alice bob " hi " 5
                empty_store eq_refl) as H1.
  pose proof (send_pushes_to_receiver [(alice, "sA")] alice bob " hi " 5
                empty_store eq_refl) as H2.
  destruct (sendMessage [(bob, "sB")] alice bob (Some " hi ") 5 empty_store)
    as [[r1 e1] s1] eqn:E1.
  destruct (sendMessage [(alice, "sA")] alice bob (Some " hi ") 5 empty_store)
    as [[r2 e2] s2].
  destruct H1 as (pm & _ & Hj & _ & _ & _ & _ & _ & _ & H1).
  destruct H2 as (_ & _ & _ & _ & _ & _ & _ & _ & H2 & _).
  simpl. rewrite (H1 "sB" eq_refl eq_refl), (H2 eq_refl).
  split; [|done]. do 3 f_equal.
  apply (f_equal (λ x, json x.1.1)) in E1. simpl in E1. rewrite Hj in E1.
  vm_compute in E1. by injection E1 as <-.
Defined.

(** The store a resolved send leaves, read through the lookup: the
    conversation found for the pair lists the new id last and points at
    it. *)
Lemma send_into_state reg u r txt now c st0 :
  wf_store st0 →
  find (matches_all [u; r]) (conversationDocs st0) = Some c →
  let st1 := (send_into reg u r txt now c st0).2 in
  let m := sent_message u r txt (conv_id c) (nextId st0) in
  find (matches_all [u; r]) (conversationDocs st1)
  = Some (with_new_message c (nextId st0) now)
  ∧ messageDocs st1 !! nextId st0 = Some m
  ∧ (∀ d, d ∈ conversationDocs st1 →
          d = with_new_message c (nextId st0) now
          ∨ d ∈ conversationDocs st0 ∧ conv_id d ≠ conv_id c)
  ∧ with_new_message c (nextId st0) now ∈ conversationDocs st1.
Proof.
  intros Hwf Hfind st1 m.
  pose proof (send_into_found reg u r txt now [u; r] c st0 Hwf Hfind) as Hf.
  split; [done|]. split; [apply lookup_insert_eq|]. split.
  - intros d [[-> _]|[Hd Hne]]%replace_conversation_elem; [by left|].
    right. done.
  - by apply find_elem in Hf as [? _].
Qed.

(** X4: a message that was sent is there for the receiver whether or not it
    was pushed: in the receiver's next fetch of the thread it is the last
    element, as the send answered it (unread), and that fetch marks it read
    in the store.  The sender's own fetch of the thread leaves it unread. *)
Theorem sent_message_reaches_receiver (reg : JS.object string)
    (u r : UserId) (txt : string) (now : Time) (st : Store) :
  wf_store st →
  content_missing (Some txt) = false →
  let '((res, es), st1) := sendMessage reg u r (Some txt) now st in
  let '(res2, st2) := getMessages r u st1 in
  ∃ pm ms,
    json res = JsonMessage pm ∧ json res2 = JsonMessages ms
    ∧ last ms = Some pm
    ∧ isRead (doc pm) = false
    ∧ messageDocs st1 !! msg_id (doc pm) = Some (doc pm)
    ∧ messageDocs st2 !! msg_id (doc pm) = Some (mark_read (doc pm))
    ∧ (u ≠ r →
       messageDocs (getMessages u r st1).2 !! msg_id (doc pm)
       = Some (doc pm)).
Proof.
  intros Hwf Hb.
  destruct (sendMessage_resolved reg u r txt now st Hwf Hb)
    as (c & st0 & -> & Hwf0 & Hfind & _).
  destruct (send_into_state reg u r txt now c st0 Hwf0 Hfind)
    as (Hf1 & Hm1 & _ & _).
  destruct (send_into reg u r txt now c st0) as [[res es] st1] eqn:Hsend.
  unfold send_into in Hsend. injection Hsend as <- <- <-.
  cbn [snd] in Hf1, Hm1.
  set (m := sent_message u r txt (conv_id c) (nextId st0)) in *.
  set (st1 := {| userDocs := userDocs st0;
                 conversationDocs :=
                   replace_conversation
                     (with_new_message c (nextId st0) now)
                     (conversationDocs st0);
                 messageDocs := <[nextId st0:=m]> (messageDocs st0);
                 nextId := N.succ (nextId st0) |}) in *.
  rewrite getMessages_eq, find_matches_all_swap, Hf1.
  exists (populate_message st0 m). eexists. split; [done|]. split; [done|].
  assert (thread_unread (conv_id c) u r m = true) as Hyes.
  { by apply thread_unread_true. }
  split; [|split; [done|]; split; [done|]; split].
  - cbn [messages with_new_message]. rewrite omap_app. simpl.
    change (<[nextId st0:=m]> (messageDocs st0) !! nextId st0)
      with (messageDocs st1 !! nextId st0).
    rewrite Hm1. simpl. apply last_snoc.
  - simpl.
    destruct (read_where_lookup (thread_unread (conv_id c) u r)
                (messageDocs st1) _ _ Hm1) as [H _].
    by apply H.
  - intros Hne. rewrite getMessages_eq, Hf1. simpl.
    destruct (read_where_lookup (thread_unread (conv_id c) r u)
                (messageDocs st1) _ _ Hm1) as [_ H].
    apply H. rewrite thread_unread_true. simpl. intros (_ & Hs & _).
    by apply Hne.
Qed.

Lemma sent_message_reaches_receiver_witness :
  let st1 := (sendMessage [] alice bob (Some "hi") 5 empty_store).2 in
  (isRead <$> messageDocs st1 !! 1) = Some false
  ∧ (isRead <$> messageDocs (getMessages alice bob st1).2 !! 1) = Some false
  ∧ (isRead <$> messageDocs (getMessages bob alice st1).2 !! 1) = Some true.
Proof.
  intros st1. unfold st1.
  pose proof (sent_message_reaches_receiver [] alice bob "hi" 5 empty_store
                wf_empty_store eq_refl) as H.
  destruct (sendMessage [] alice bob (Some "hi") 5 empty_store)
    as [[res es] s1] eqn:Hs. cbn [snd].
  destruct (getMessages bob alice s1) as [res2 s2] eqn:Hg. cbn [snd].
  destruct H as (pm & ms & Hj & _ & _ & _ & H1 & H2 & H3).
  assert (doc pm = sent_message alice bob "hi" 0 1) as Hpm.
  { apply (f_equal (λ x, json x.1.1)) in Hs. simpl in Hs.
    rewrite Hj in Hs. vm_compute in Hs. by injection Hs as <-. }
  rewrite Hpm in H1, H2, H3. simpl in H1, H2, H3.
  rewrite H1, H2, H3 by done. done.
Defined.

(** In a list ordered most recent first, a conversation strictly more
    recent than every other one is the head. *)
Lemma newest_is_head (l : list Conversation) (x : Conversation) :
  StronglySorted newer_first l → x ∈ l →
  (∀ y, y ∈ l → y ≠ x → lastMessageTime y < lastMessageTime x) →
  head l = Some x.
Proof.
  intros Hs Hx Hnew. destruct l as [|h t]; [by apply elem_of_nil in Hx|].
  simpl. f_equal. destruct (decide (h = x)) as [|Hne]; [done|].
  exfalso. apply elem_of_cons in Hx as [->|Hx]; [done|].
  apply StronglySorted_inv in Hs as [_ Hall].
  rewrite Forall_forall in Hall. specialize (Hall x Hx).
  specialize (Hnew h (list_elem_of_here _ _) Hne).
  unfold newer_first in Hall. lia.
Qed.

(** X5: after a send at a time later than every stored [lastMessageTime],
    the conversation written to heads the list of the sender and the list
    of the receiver, with the new message as its [lastMessage] (the trimmed
    text, the sender, unread) and the time of the send. *)
Theorem sent_conversation_heads_the_list (reg : JS.object string)
    (u r : UserId) (txt : string) (now : Time) (st : Store) (v : UserId) :
  wf_store st →
  content_missing (Some txt) = false →
  (∀ d, d ∈ conversationDocs st → lastMessageTime d < now) →
  v = u ∨ v = r →
  let '((res, es), st1) := sendMessage reg u r (Some txt) now st in
  ∃ pm s,
    json res = JsonMessage pm
    ∧ head (list_json (getConversations v st1).1) = Some s
    ∧ summary_lastMessage s
      = Some (mkLastMessage (msg_id (doc pm)) (JS.trim txt) u false)
    ∧ summary_lastMessageTime s = now.
Proof.
  intros Hwf Hb Hold Hv.
  destruct (sendMessage_resolved reg u r txt now st Hwf Hb)
    as (c & st0 & -> & Hwf0 & Hfind & _ & _ & _ & Hdocs).
  destruct (send_into_state reg u r txt now c st0 Hwf0 Hfind)
    as (_ & Hm1 & Hall & Hin).
  pose proof (find_elem _ _ _ Hfind) as [Hc Hmatch].
  apply matches_all_pair in Hmatch as [Hu Hr].
  destruct (send_into reg u r txt now c st0) as [[res es] st1] eqn:Hsend.
  unfold send_into in Hsend. injection Hsend as <- <- Hst1.
  cbn [snd] in Hm1, Hall, Hin.
  set (c' := with_new_message c (nextId st0) now) in *.
  exists (populate_message st0 (sent_message u r txt (conv_id c) (nextId st0))),
    (format_conversation st1 v c').
  split; [done|]. split; [|split; [|done]].
  - rewrite getConversations_eq. cbn [fst list_json].
    assert (head (merge_sort newer_first
                    (filter (λ d, v ∈ participants d) (conversationDocs st1)))
            = Some c') as Hhead.
    { apply newest_is_head.
      - apply StronglySorted_merge_sort; apply _.
      - rewrite merge_sort_Permutation. apply list_elem_of_filter.
        split; [|done]. simpl. by destruct Hv as [-> | ->].
      - intros y Hy Hne. rewrite merge_sort_Permutation in Hy.
        apply list_elem_of_filter in Hy as [_ Hy].
        apply Hall in Hy as [->|[Hy Hid]]; [done|]. simpl.
        destruct Hdocs as [Hsame|(Happ & Hnew & _)].
        + rewrite Hsame in Hy. by apply Hold.
        + rewrite Happ in Hy.
          apply elem_of_app in Hy as [Hy|Hy%list_elem_of_singleton];
            [by apply Hold | by subst y]. }
    destruct (merge_sort _ _) as [|h t]; [done|].
    simpl in Hhead. injection Hhead as ->. done.
  - unfold format_conversation, populate_lastMessage; simpl.
    by rewrite Hm1.
Qed.

Lemma sent_conversation_heads_the_list_witness :
  let st1 := (sendMessage [] alice carol (Some "hey") 9 store_alice_bob).2 in
  (summary_id <$> list_json (getConversations alice st1).1) = [2; 0]
  ∧ (summary_lastMessage <$> head (list_json (getConversations alice st1).1))
    = Some (Some (mkLastMessage 3 "hey" alice false)).
Proof.
  intros st1. unfold st1.
  assert (wf_store store_alice_bob) as Hwf
    by apply sendMessage_wf, wf_empty_store.
  pose proof (sent_conversation_heads_the_list [] alice carol "hey" 9
                store_alice_bob alice Hwf eq_refl) as H.
  destruct (sendMessage [] alice carol (Some "hey") 9 store_alice_bob)
    as [[res es] s1] eqn:Hs. cbn [snd].
  destruct H as (pm & s & Hj & Hh & Hl & _).
  { intros d Hd. vm_compute in Hd. apply list_elem_of_singleton in Hd.
    subst d. simpl. lia. }
  { by left. }
  assert (msg_id (doc pm) = 3) as Hid.
  { apply (f_equal (λ x, json x.1.1)) in Hs. simpl in Hs.
    rewrite Hj in Hs. vm_compute in Hs. by injection Hs as <-. }
  rewrite Hh. simpl. rewrite Hl, Hid. split; [|done].
  apply (f_equal snd) in Hs. simpl in Hs. subst s1. by vm_compute.
Defined.

(** X6: when the sender deletes the message a conversation points at as its
    last one, the lists of the participants keep the conversation, at the
    same [lastMessageTime], with [lastMessage] now [null]; before the
    delete they showed that message. *)
Theorem deleted_last_message_is_listed_as_null (st : Store) (u v : UserId)
    (mid : ObjectId) (m : Message) (c : Conversation) :
  messageDocs st !! mid = Some m → senderId m = u →
  c ∈ conversationDocs st → conv_id c = conversationId m →
  lastMessage c = Some mid → v ∈ participants c →
  let '(res, st') := deleteMessage u mid st in
  status res = 200
  ∧ (∃ s, s ∈ list_json (getConversations v st).1
          ∧ summary_id s = conv_id c
          ∧ summary_lastMessage s
            = Some (mkLastMessage (msg_id m) (message m) u (isRead m)))
  ∧ (∃ s', s' ∈ list_json (getConversations v st').1
           ∧ summary_id s' = conv_id c
           ∧ summary_lastMessage s' = None
           ∧ summary_lastMessageTime s' = lastMessageTime c).
Proof.
  intros Hm Hs Hc Hid Hlast Hv. rewrite deleteMessage_eq, Hm.
  rewrite bool_decide_false by (by intros ?). simpl.
  split; [done|]. split.
  - exists (format_conversation st v c). split; [|split; [done|]].
    + apply listed_iff. by exists c.
    + unfold format_conversation, populate_lastMessage; simpl.
      rewrite Hlast; simpl. rewrite Hm; simpl. by rewrite Hs.
  - eexists (format_conversation _ v (pull_message mid c)).
    split; [|split; [done|]; split; [|done]].
    + apply listed_iff. exists (pull_message mid c).
      split; [|split; [done|done]]. simpl. unfold pull_from.
      apply list_elem_of_fmap. exists c. by rewrite decide_True.
    + unfold format_conversation, populate_lastMessage; simpl.
      rewrite Hlast; simpl. by rewrite lookup_delete_eq.
Qed.

Lemma deleted_last_message_is_listed_as_null_witness :
  let st' := (deleteMessage alice 1 store_alice_bob).2 in
  ∃ s', s' ∈ list_json (getConversations bob st').1
        ∧ summary_id s' = 0 ∧ summary_lastMessage s' = None
        ∧ summary_lastMessageTime s' = 5.
Proof.
  intros st'. unfold st'.
  pose proof (deleted_last_message_is_listed_as_null store_alice_bob
                alice bob 1 (sent_message alice bob "hi" 0 1)
                (with_new_message (new_conversation [alice; bob] 5 0) 1 5)
                eq_refl eq_refl) as H.
  destruct (deleteMessage alice 1 store_alice_bob) as [res s1]. cbn [snd].
  destruct H as (_ & _ & H); [by left | done | done | by right; left |].
  exact H.
Defined.

(** ** More on the presence registry *)

Lemma on_connection_eq sid q (reg : JS.object string) :
  on_connection sid q reg
  = ((on_connection sid q reg).1,
     [io_emit "getOnlineUsers"
        (OnlineUsers (JS.keys (on_connection sid q reg).1))]).
Proof. done. Qed.

Lemma on_disconnect_eq sid (reg : JS.object string) :
  on_disconnect sid reg
  = ((on_disconnect sid reg).1,
     [io_emit "getOnlineUsers"
        (OnlineUsers (JS.keys (on_disconnect sid reg).1))]).
Proof. done. Qed.

Lemma on_connection_clean sid q reg :
  clean_registry reg → clean_registry (on_connection sid q reg).1.
Proof.
  intros [Hwf Hk]. split; [by apply on_connection_wf|].
  unfold on_connection; simpl. destruct q as [u|]; [|done].
  destruct (JS.truthy u && bool_decide (u ≠ "undefined")) eqn:Hg; [|done].
  apply andb_true_iff in Hg as [Ht Hu]. apply bool_decide_eq_true in Hu.
  intros k [->|Hin]%keys_put; [by split | by apply Hk].
Qed.

Lemma on_disconnect_clean sid reg :
  clean_registry reg → clean_registry (on_disconnect sid reg).1.
Proof.
  intros [Hwf Hk]. split; [by apply on_disconnect_wf|].
  unfold on_disconnect; simpl.
  destruct (find _ _) as [[u v]|]; [|done].
  intros k Hin%keys_remove. by apply Hk.
Qed.

Lemma step_clean w e :
  clean_registry (userSocketMap w) →
  clean_registry (userSocketMap (step w e).1)
  ∧ ∀ ev ids, io_emit ev (OnlineUsers ids) ∈ emitted (step w e).2 →
              ids = JS.keys (userSocketMap (step w e).1).
Proof.
  intros Hc. destruct e as [v o|u r body now|u k|u cid|s q|s t|s t|s];
    unfold step.
  - destruct (getMessages _ _ _). split; [done|]. by intros ?? ?%elem_of_nil.
  - destruct (sendMessage _ _ _ _ _ _) as [[res es] st'] eqn:Hs.
    split; [done|]. simpl. intros ev ids Hin.
    destruct (content_missing body) eqn:Hb.
    + rewrite sendMessage_rejects in Hs by done. injection Hs as <- <- <-.
      by apply elem_of_nil in Hin.
    + destruct body as [txt|]; [|done].
      rewrite sendMessage_accepts in Hs by done.
      assert (∀ c st0,
                ((send_into (userSocketMap w) u r txt now c st0).1).2 = es →
                False) as Hno.
      { intros c st0 <-. unfold send_into, emit_if in Hin; simpl in Hin.
        destruct (getReceiverSocketId _ _) as [h|];
          [destruct (JS.truthy h)|];
          [apply list_elem_of_singleton in Hin; done
          | by apply elem_of_nil in Hin..]. }
      destruct (find _ _) as [c|].
      * exfalso. apply (Hno c (db w)). by rewrite Hs.
      * rewrite Conversation_create_eq in Hs. exfalso.
        eapply Hno. by rewrite Hs.
  - destruct (deleteMessage _ _ _). split; [done|]. by intros ?? ?%elem_of_nil.
  - destruct (markRead _ _ _). split; [done|]. by intros ?? ?%elem_of_nil.
  - pose proof (on_connection_clean s q _ Hc) as Hc'.
    rewrite on_connection_eq. simpl. split; [done|].
    by intros ev ids [= _ ->]%list_elem_of_singleton.
  - split; [done|]. simpl. intros ev ids Hin. unfold on_typing, emit_if in Hin.
    destruct (JS.get _ _) as [h|]; [destruct (JS.truthy h)|];
      [apply list_elem_of_singleton in Hin; done
      | by apply elem_of_nil in Hin..].
  - split; [done|]. simpl. intros ev ids Hin.
    unfold on_messageRead, emit_if in Hin.
    destruct (JS.get _ _) as [h|]; [destruct (JS.truthy h)|];
      [apply list_elem_of_singleton in Hin; done
      | by apply elem_of_nil in Hin..].
  - pose proof (on_disconnect_clean s _ Hc) as Hc'.
    rewrite on_disconnect_eq. simpl. split; [done|].
    by intros ev ids [= _ ->]%list_elem_of_singleton.
Qed.

Lemma run_clean w es :
  clean_registry (userSocketMap w) →
  ∀ o ev ids, o ∈ (run w es).2 → io_emit ev (OnlineUsers ids) ∈ emitted o →
              NoDup ids ∧ ∀ k, k ∈ ids → identifies k.
Proof.
  revert w. induction es as [|e es IH]; intros w Hc o ev ids; simpl.
  - by intros ?%elem_of_nil.
  - destruct (step_clean w e Hc) as [Hc1 Hout].
    destruct (step w e) as [w1 o1]. simpl in *.
    specialize (IH w1 Hc1). destruct (run w1 es) as [w2 os]. simpl in *.
    intros [->|Ho]%elem_of_cons Hin; [|by eapply IH].
    rewrite (Hout _ _ Hin). by destruct Hc1.
Qed.

(** X7: whatever happens on the server started with an empty registry,
    every online-users list it broadcasts names each user at most once and
    never holds the empty string or the string "undefined". *)
Theorem broadcast_snapshots_are_clean (es : list Event) (o : Outcome)
    (ev : string) (ids : list UserId) :
  o ∈ (run initial_world es).2 →
  io_emit ev (OnlineUsers ids) ∈ emitted o →
  NoDup ids ∧ ("" ∉ ids) ∧ ("undefined" ∉ ids).
Proof.
  intros Ho Hin.
  destruct (run_clean initial_world es) with (o := o) (ev := ev) (ids := ids)
    as [Hnd Hid]; [|done|done|].
  - split; [apply wf_nil | by intros k ?%elem_of_nil].
  - split; [done|]. split; intros Hbad; by destruct (Hid _ Hbad).
Qed.

Lemma broadcast_snapshots_are_clean_witness :
  let es := [connection "s1" (Some "undefined"); connection "s2" (Some alice);
             connection "s3" (Some alice); connection "s4" (Some "")] in
  (emitted <$> (run initial_world es).2)
  = [[io_emit "getOnlineUsers" (OnlineUsers [])];
     [io_emit "getOnlineUsers" (OnlineUsers [alice])];
     [io_emit "getOnlineUsers" (OnlineUsers [alice])];
     [io_emit "getOnlineUsers" (OnlineUsers [alice])]]
  ∧ NoDup [alice].
Proof.
  intros es. split; [by vm_compute|].
  refine (proj1 (broadcast_snapshots_are_clean es
                   (mkOutcome None
                      [io_emit "getOnlineUsers" (OnlineUsers [alice])])
                   "getOnlineUsers" [alice] _ _)).
  - vm_compute. right. left.
  - left.
Defined.

Lemma disconnect_find_None sid (reg : JS.object string) :
  JS.wf reg → unregistered_socket sid reg →
  find (λ entry : string * string, bool_decide (entry.2 = sid))
    (JS.entries reg) = None.
Proof.
  intros Hwf Hun. destruct (find _ _) as [[u v]|] eqn:Hfind; [|done].
  apply disconnect_find in Hfind as [Hin ->].
  apply (wf_elem_get _ _ _ Hwf) in Hin. by destruct (Hun u).
Qed.

(** X8: a connection whose handshake carries no usable identity (none, the
    empty string or the string "undefined") registers nobody, and neither
    its arrival nor its departure changes the registry; each of the two
    events still broadcasts the (unchanged) list of online users. *)
Theorem anonymous_connection_changes_nothing (reg : JS.object string)
    (sid : SocketId) (q : option string) :
  JS.wf reg → anonymous q → unregistered_socket sid reg →
  on_connection sid q reg
  = (reg, [io_emit "getOnlineUsers" (OnlineUsers (JS.keys reg))])
  ∧ on_disconnect sid reg
    = (reg, [io_emit "getOnlineUsers" (OnlineUsers (JS.keys reg))]).
Proof.
  intros Hwf Hq Hun. split.
  - by destruct Hq as [-> | [-> | ->]].
  - unfold on_disconnect. by rewrite disconnect_find_None.
Qed.

Lemma anonymous_connection_changes_nothing_witness :
  let w := mkWorld empty_store [(alice, "sA")] in
  (run w [connection "s9" (Some "undefined"); disconnect "s9"]).1 = w.
Proof.
  intros w.
  destruct (anonymous_connection_changes_nothing [(alice, "sA")] "s9"
              (Some "undefined")) as [H1 H2].
  - apply NoDup_singleton.
  - by right; right.
  - intros u Hu. simpl in Hu. by destruct (decide (alice = u)).
  - unfold w. cbn [run step userSocketMap db]. rewrite H1.
    cbn [userSocketMap db]. by rewrite H2.
Defined.

Lemma on_connection_injective sid q reg :
  unregistered_socket sid reg → injective_registry reg →
  injective_registry (on_connection sid q reg).1.
Proof.
  intros Hun Hinj. unfold on_connection; simpl. destruct q as [u|]; [|done].
  destruct (JS.truthy u && bool_decide (u ≠ "undefined")); [|done].
  intros a b h. destruct (decide (u = a)) as [<-|Ha];
    destruct (decide (u = b)) as [<-|Hb]; [done|..].
  - rewrite get_put_eq, get_put_ne by done. intros [= <-] Hb'.
    by destruct (Hun b).
  - rewrite get_put_eq, get_put_ne by done. intros Ha' [= <-].
    by destruct (Hun a).
  - rewrite !get_put_ne by done. apply Hinj.
Qed.

Lemma get_remove_Some (reg : JS.object string) k u h :
  JS.wf reg → JS.get (JS.remove reg k) u = Some h →
  u ≠ k ∧ JS.get reg u = Some h.
Proof.
  intros Hwf Hget. destruct (decide (k = u)) as [->|Hne].
  - by rewrite get_remove_eq in Hget.
  - rewrite get_remove_ne in Hget by done. split; [by intros ->|done].
Qed.

Lemma on_disconnect_injective sid reg :
  JS.wf reg → injective_registry reg →
  injective_registry (on_disconnect sid reg).1.
Proof.
  intros Hwf Hinj. unfold on_disconnect; simpl.
  destruct (find _ _) as [[k v]|]; [|done].
  intros a b h [_ Ha]%get_remove_Some [_ Hb]%get_remove_Some; try done.
  by apply (Hinj a b h).
Qed.

(** X9: as long as no two users share a socket id, which a connection on a
    socket id not yet in the registry and any disconnect keep true, the
    disconnect of a socket leaves no user registered with it: the registry
    never points at a socket that has closed. *)
Theorem disconnect_leaves_no_stale_handle (reg : JS.object string)
    (sid new_sid : SocketId) (q : option string) :
  JS.wf reg → injective_registry reg → unregistered_socket new_sid reg →
  unregistered_socket sid (on_disconnect sid reg).1
  ∧ injective_registry (on_disconnect sid reg).1
  ∧ injective_registry (on_connection new_sid q reg).1.
Proof.
  intros Hwf Hinj Hnew. split; [|split].
  - intros u Hu. unfold on_disconnect in Hu; simpl in Hu.
    destruct (find _ _) as [[k v]|] eqn:Hfind.
    + apply disconnect_find in Hfind as [Hin ->].
      apply (wf_elem_get _ _ _ Hwf) in Hin.
      apply get_remove_Some in Hu as [Hne Hu]; [|done].
      apply Hne. by apply (Hinj u k sid).
    + apply get_Some_elem, list_elem_of_In in Hu.
      apply (find_none _ _ Hfind) in Hu. simpl in Hu.
      by rewrite bool_decide_true in Hu.
  - by apply on_disconnect_injective.
  - by apply on_connection_injective.
Qed.

Lemma disconnect_leaves_no_stale_handle_witness :
  let reg := [(alice, "sA"); (bob, "sB")] in
  (on_disconnect "sA" reg).1 = [(bob, "sB")]
  ∧ unregistered_socket "sA" (on_disconnect "sA" reg).1.
Proof.
  intros reg. split; [done|].
  refine (proj1 (disconnect_leaves_no_stale_handle reg "sA" "sC" None _ _ _)).
  - unfold JS.wf, JS.keys; simpl. apply NoDup_cons. split.
    + by intros ?%list_elem_of_singleton.
    + apply NoDup_singleton.
  - intros a b h Ha Hb. simpl in Ha, Hb.
    destruct (decide (alice = a)), (decide (alice = b)),
      (decide (bob = a)), (decide (bob = b)); congruence.
  - intros u Hu. simpl in Hu.
    destruct (decide (alice = u)), (decide (bob = u)); congruence.
Defined.

(** X10: last connection wins, also when it leaves: after a user has
    connected on [c1] and then on [c2], the disconnect of [c2] leaves the
    user without entry, although [c1] never disconnected; a typing event
    for that user is then dropped. *)
Theorem newest_connection_closing_unregisters (reg : JS.object string)
    (u : UserId) (c1 c2 s : SocketId) (t : TypingData) :
  JS.wf reg → identifies u →
  (∀ u', u' ≠ u → JS.get reg u' ≠ Some c2) →
  typing_receiverId t = u →
  let r1 := (on_connection c1 (Some u) reg).1 in
  let r2 := (on_connection c2 (Some u) r1).1 in
  let r3 := (on_disconnect c2 r2).1 in
  JS.get r2 u = Some c2
  ∧ JS.get r3 u = None
  ∧ (u ∉ JS.keys r3)
  ∧ on_typing s t r3 = [].
Proof.
  intros Hwf Hu Hothers Ht r1 r2 r3.
  assert (r2 = JS.put (JS.put reg u c1) u c2) as Hr2.
  { unfold r2, r1. by rewrite !on_connection_registers. }
  assert (JS.get r2 u = Some c2) as Hget by (rewrite Hr2; apply get_put_eq).
  assert (JS.get r3 u = None) as Hgone.
  { apply on_disconnect_removes; [|done|].
    - rewrite Hr2. by do 2 apply wf_put.
    - intros u' Hu'. destruct (decide (u' = u)) as [|Hne]; [done|].
      rewrite Hr2, !get_put_ne in Hu' by done. by destruct (Hothers u'). }
  split; [done|]. split; [done|]. split; [by apply get_None_keys|].
  unfold on_typing. by rewrite Ht, Hgone.
Qed.

Lemma newest_connection_closing_unregisters_witness :
  let r2 := (on_connection "tab2" (Some alice)
               (on_connection "tab1" (Some alice) []).1).1 in
  r2 = [(alice, "tab2")]
  ∧ JS.get (on_disconnect "tab2" r2).1 alice = None.
Proof.
  intros r2. split; [done|].
  refine (proj1 (proj2 (newest_connection_closing_unregisters [] alice
                          "tab1" "tab2" "sB"
                          (mkTypingData bob alice true) _ _ _ _))).
  - apply wf_nil.
  - by split.
  - done.
  - done.
Defined.

(** ** Statistics and account deletion *)

Lemma getStatsOverview_eq u st :
  getStatsOverview u st
  = (mkStatsResponse 200
       (size (filter (λ km : N * Message, senderId km.2 = u) (messageDocs st)))
       (length (filter (λ c, u ∈ participants c) (conversationDocs st))),
     st).
Proof. done. Qed.

(** Counting the messages of a sender, one insertion or deletion at a
    time. *)
Lemma count_sender_insert (ms : gmap N Message) k m v :
  ms !! k = None →
  size (filter (λ km : N * Message, senderId km.2 = v) (<[k := m]> ms))
  = (size (filter (λ km : N * Message, senderId km.2 = v) ms)
     + (if decide (senderId m = v) then 1 else 0))%nat.
Proof.
  intros Hk. rewrite map_filter_insert. simpl.
  destruct (decide (senderId m = v)).
  - rewrite map_size_insert_None; [lia|].
    apply map_lookup_filter_None. by left.
  - rewrite delete_id by done. lia.
Qed.



(** Counting conversations is blind to an update that keeps the
    participants of the stored documents. *)
Lemma count_participant_fmap (f : Conversation → Conversation)
    (cs : list Conversation) v :
  (∀ c, c ∈ cs → participants (f c) = participants c) →
  length (filter (λ c, v ∈ participants c) (f <$> cs))
  = length (filter (λ c, v ∈ participants c) cs).
Proof.
  induction cs as [|c cs IH]; [done|]. intros Hf.
  rewrite fmap_cons, !filter_cons, (Hf c) by left.
  destruct (decide (v ∈ participants c)); simpl; rewrite IH; try done;
    intros d Hd; apply Hf; by right.
Qed.

Lemma count_replace_conversation c now id cs v :
  NoDup (conv_id <$> cs) → c ∈ cs →
  length (filter (λ d, v ∈ participants d)
            (replace_conversation (with_new_message c id now) cs))
  = length (filter (λ d, v ∈ participants d) cs).
Proof.
  intros Hnd Hc. apply count_participant_fmap. intros d Hd.
  destruct (decide _) as [Heq|]; [|done]. simpl in Heq. simpl.
  by rewrite (conv_id_inj _ d c Hnd Hd Hc Heq).
Qed.

(** X11: a send that passes the validation raises the sender's
    [messagesSent] by exactly one and nobody else's.  It raises
    [activeConversations] by one for the sender and for the receiver when
    it had to create the conversation, and changes no
    [activeConversations] otherwise. *)
Theorem send_moves_the_statistics (reg : JS.object string) (u r : UserId)
    (txt : string) (now : Time) (st : Store) (v : UserId) :
  wf_store st →
  content_missing (Some txt) = false →
  let st1 := (sendMessage reg u r (Some txt) now st).2 in
  messagesSent (getStatsOverview v st1).1
  = (messagesSent (getStatsOverview v st).1
     + (if decide (v = u) then 1 else 0))%nat
  ∧ activeConversations (getStatsOverview v st1).1
    = (activeConversations (getStatsOverview v st).1
       + match find (matches_all [u; r]) (conversationDocs st) with
         | Some _ => 0
         | None => if decide (v = u ∨ v = r) then 1 else 0
         end)%nat.
Proof.
  intros Hwf Hb st1. unfold st1.
  destruct (sendMessage_resolved reg u r txt now st Hwf Hb)
    as (c & st0 & -> & Hwf0 & Hfind & _ & Hmsgs & Hnext & Hdocs).
  pose proof (find_elem _ _ _ Hfind) as [Hc _].
  rewrite !getStatsOverview_eq. unfold send_into. cbn [fst snd
    messagesSent activeConversations messageDocs conversationDocs].
  split.
  - rewrite count_sender_insert, Hmsgs.
    + simpl. by destruct (decide (u = v)), (decide (v = u)).
    + destruct (messageDocs st0 !! nextId st0) eqn:Hl; [|done].
      apply (wf_msg_fresh _ Hwf0) in Hl. lia.
  - rewrite count_replace_conversation
      by (done || apply (wf_conv_ids _ Hwf0)).
    destruct Hdocs as [Hsame|(Happ & Hnew & Hnone)].
    + rewrite Hsame in *. rewrite Hfind. lia.
    + rewrite Happ, Hnone, filter_app, length_app. f_equal.
      rewrite Hnew, filter_cons. simpl.
      destruct (decide (v ∈ [u; r])) as [Hin|Hin];
        destruct (decide (v = u ∨ v = r)) as [Hor|Hor]; try done.
      * exfalso. apply Hor.
        apply elem_of_cons in Hin as [?|Hin]; [by left|].
        apply list_elem_of_singleton in Hin. by right.
      * exfalso. apply Hin. destruct Hor as [-> | ->]; [left | right; left].
Qed.

Lemma send_moves_the_statistics_witness :
  let st1 := (sendMessage [] alice bob (Some "hi") 5 empty_store).2 in
  let st2 := (sendMessage [] bob alice (Some "yo") 6 st1).2 in
  messagesSent (getStatsOverview alice st2).1 = 1%nat
  ∧ messagesSent (getStatsOverview bob st2).1 = 1%nat
  ∧ activeConversations (getStatsOverview bob st2).1 = 1%nat
  ∧ activeConversations (getStatsOverview carol st1).1 = 0%nat.
Proof.
  intros st1 st2.
  assert (wf_store st1) as Hwf by apply sendMessage_wf, wf_empty_store.
  destruct (send_moves_the_statistics [] bob alice "yo" 6 st1 alice
              Hwf eq_refl) as [Ha1 _].
  destruct (send_moves_the_statistics [] bob alice "yo" 6 st1 bob
              Hwf eq_refl) as [Hb1 Hb2].
  destruct (send_moves_the_statistics [] alice bob "hi" 5 empty_store carol
              wf_empty_store eq_refl) as [_ Hc2].
  fold st2 in Ha1, Hb1, Hb2. fold st1 in Hc2.
  rewrite Ha1, Hb1, Hb2, Hc2. by vm_compute.
Defined.




(** X13: the number the statistics route reports as [activeConversations]
    is the number of entries the list route answers the same user with. *)
Theorem statistics_agree_with_the_list (st : Store) (u : UserId) :
  activeConversations (getStatsOverview u st).1
  = length (list_json (getConversations u st).1)
  ∧ stats_status (getStatsOverview u st).1 = 200
  ∧ (getStatsOverview u st).2 = st.
Proof.
  rewrite getStatsOverview_eq, getConversations_eq. simpl.
  split; [|done]. rewrite length_fmap.
  by rewrite (merge_sort_Permutation newer_first).
Qed.

(** *** Deleting an account *)

Lemma deleteAccount_eq u st :
  deleteAccount u st
  = (match userDocs st !! u with
     | None => mkResponse 404 (JsonError "User not found")
     | Some _ => mkResponse 200 (JsonInfo "Account deleted successfully")
     end,
     {| userDocs := delete u (userDocs st);
        conversationDocs := conversationDocs st;
        messageDocs := messageDocs st; nextId := nextId st |}).
Proof.
  unfold deleteAccount, db_bind, User_findByIdAndDelete.
  by destruct (userDocs st !! u).
Qed.

(** The documents of a thread depend on the conversations and messages
    only, not on the users. *)
Lemma thread_docs_without_user v o st st' :
  conversationDocs st' = conversationDocs st →
  messageDocs st' = messageDocs st →
  match json (getMessages v o st).1, json (getMessages v o st').1 with
  | JsonMessages ms, JsonMessages ms' => doc <$> ms' = doc <$> ms
  | _, _ => False
  end.
Proof.
  intros Hc Hm. rewrite !getMessages_eq, Hc.
  destruct (find _ _) as [c|]; [|done]. simpl. rewrite Hm.
  induction (messages c) as [|k ks IH]; [done|]. simpl.
  destruct (messageDocs st !! k); simpl; [f_equal|]; exact IH.
Qed.

(** X14: deleting an account answers 404, changing nothing, when the user
    has no document, and 200 otherwise.  It removes the user's document
    and nothing else: every conversation and message stays, so the threads
    still answer the same messages, those of the deleted user now with the
    sender populated as [null], and a conversation with that user is still
    in the other participant's list, its participant shown as
    [undefined]. *)
Theorem delete_account_keeps_the_messages (st : Store) (u : UserId) :
  let '(res, st') := deleteAccount u st in
  (userDocs st !! u = None → status res = 404 ∧ st' = st)
  ∧ (is_Some (userDocs st !! u) → status res = 200)
  ∧ userDocs st' = delete u (userDocs st)
  ∧ conversationDocs st' = conversationDocs st
  ∧ messageDocs st' = messageDocs st
  ∧ nextId st' = nextId st
  ∧ (∀ v o ms ms',
       json (getMessages v o st).1 = JsonMessages ms →
       json (getMessages v o st').1 = JsonMessages ms' →
       doc <$> ms' = doc <$> ms
       ∧ ∀ pm, pm ∈ ms' →
               (senderId (doc pm) = u → sender pm = None)
               ∧ (receiverId (doc pm) = u → receiver pm = None))
  ∧ (∀ v c, c ∈ conversationDocs st → v ≠ u →
            participants c = [v; u] ∨ participants c = [u; v] →
            ∃ s, s ∈ list_json (getConversations v st').1
                 ∧ summary_id s = conv_id c ∧ participant s = None).
Proof.
  rewrite deleteAccount_eq. cbv beta iota.
  set (st' := {| userDocs := delete u (userDocs st);
                 conversationDocs := conversationDocs st;
                 messageDocs := messageDocs st; nextId := nextId st |}).
  split; [|split; [|do 4 (split; [done|]); split]].
  - intros Hnone. rewrite Hnone. split; [done|].
    unfold st'. rewrite delete_id by done. by destruct st.
  - by intros [p ->].
  - intros v o ms ms' Hms Hms'.
    pose proof (thread_docs_without_user v o st st' eq_refl eq_refl) as H.
    rewrite Hms, Hms' in H. split; [done|].
    intros pm Hpm. rewrite getMessages_eq in Hms'.
    destruct (find _ _) as [c|]; simpl in Hms'; injection Hms' as <-;
      [|by apply elem_of_nil in Hpm].
    apply list_elem_of_omap in Hpm as (k & _ & Hk).
    destruct (messageDocs st !! k) as [m|]; [|done].
    injection Hk as <-. simpl.
    split; intros ->; apply lookup_delete_eq.
  - intros v c Hc Hne Hps.
    exists (format_conversation st' v c). split; [|split; [done|]].
    + apply listed_iff. exists c. split; [done|]. split; [|done].
      destruct Hps as [-> | ->]; [left | right; left].
    + rewrite (format_other_participant st' v u c); [|tauto|done].
      simpl. by rewrite lookup_delete_eq.
Qed.

Lemma delete_account_keeps_the_messages_witness :
  let st := with_users two_users store_alice_bob in
  let st' := (deleteAccount alice st).2 in
  status (deleteAccount alice st).1 = 200
  ∧ status (deleteAccount carol st).1 = 404
  ∧ messageDocs st' = messageDocs st
  ∧ (participant <$> list_json (getConversations bob st').1) = [None].
Proof.
  intros st st'. unfold st'.
  pose proof (delete_account_keeps_the_messages st alice) as H1.
  pose proof (delete_account_keeps_the_messages st carol) as H2.
  destruct (deleteAccount alice st) as [r1 s1] eqn:E1.
  destruct (deleteAccount carol st) as [r2 s2].
  destruct H1 as (_ & H1 & _ & _ & H1m & _).
  destruct H2 as (H2 & _).
  cbn [fst snd]. split; [apply H1; by eexists|].
  split; [by apply H2|]. split; [done|].
  apply (f_equal snd) in E1. simpl in E1. subst s1. by vm_compute.
Defined.

(** ** Stored texts *)

Lemma content_kept txt :
  content_missing (Some txt) = false →
  JS.trim txt ≠ "" ∧ JS.trim (JS.trim txt) = JS.trim txt.
Proof.
  intros Hb. simpl in Hb. apply orb_false_iff in Hb as [_ Hb].
  apply bool_decide_eq_false in Hb. split; [done | apply trim_idem].
Qed.

(** ** Referential integrity *)

Lemma sound_empty_store : store_sound empty_store.
Proof.
  split; simpl.
  - by intros c k ?%elem_of_nil.
  - intros k m H. by rewrite lookup_empty in H.
  - by intros c ?%elem_of_nil.
  - intros k m c H. by rewrite lookup_empty in H.
  - intros k m H. by rewrite lookup_empty in H.
Qed.

Lemma Conversation_create_sound ps now st :
  wf_store st → store_sound st →
  store_sound (Conversation_create ps now st).2.
Proof.
  intros Hwf [Hl Ho Hn Hm Hb]. rewrite Conversation_create_eq.
  split; simpl.
  - intros c k [Hc| ->%list_elem_of_singleton]%elem_of_app Hk;
      [by eapply Hl | by apply elem_of_nil in Hk].
  - intros k m Hk. destruct (Ho k m Hk) as (c & Hc & Hid & Hin).
    exists c. split; [apply elem_of_app; by left | done].
  - intros c [Hc| ->%list_elem_of_singleton]%elem_of_app;
      [by apply Hn | apply NoDup_nil_2].
  - intros k m c Hk [Hc| ->%list_elem_of_singleton]%elem_of_app Hid;
      [by eapply Hm|].
    exfalso. destruct (Ho k m Hk) as (d & Hd & Hdid & _).
    apply (wf_conv_fresh _ Hwf) in Hd. simpl in Hid. lia.
  - done.
Qed.

Lemma replace_conversation_keeps c c' cs :
  c ∈ cs → conv_id c' = conv_id c → c' ∈ replace_conversation c' cs.
Proof.
  intros Hc Hid. unfold replace_conversation.
  apply list_elem_of_fmap. exists c. by rewrite decide_True.
Qed.

Lemma send_into_sound reg u r txt now c st :
  wf_store st → store_sound st → c ∈ conversationDocs st →
  u ∈ participants c → r ∈ participants c →
  content_missing (Some txt) = false →
  store_sound (send_into reg u r txt now c st).2.
Proof.
  intros Hwf [Hl Ho Hn Hm Hb] Hc Hu Hr Htxt. unfold send_into; simpl.
  set (mid := nextId st). set (c' := with_new_message c mid now).
  assert (c' ∈ replace_conversation c' (conversationDocs st)) as Hc'
    by by apply (replace_conversation_keeps c).
  assert (∀ d k, d ∈ conversationDocs st → k ∈ messages d → k ≠ mid)
    as Hfresh.
  { intros d k Hd Hk. pose proof (wf_listed_fresh _ Hwf d k Hd Hk).
    unfold mid. lia. }
  split; simpl.
  - intros d k [[-> _]|[Hd _]]%replace_conversation_elem Hk.
    + simpl in Hk. apply elem_of_app in Hk as [Hk|Hk%list_elem_of_singleton].
      * rewrite lookup_insert_ne by (symmetry; by eapply Hfresh).
        by eapply Hl.
      * subst k. rewrite lookup_insert_eq. by eexists.
    + rewrite lookup_insert_ne by (symmetry; by eapply Hfresh).
      by eapply Hl.
  - intros k m. rewrite lookup_insert. case_decide as Hk.
    + intros [= <-]. subst k. exists c'. split; [done|]. split; [done|].
      simpl. apply elem_of_app. right. left.
    + intros Hm'. destruct (Ho k m Hm') as (d & Hd & Hid & Hin).
      destruct (decide (conv_id d = conv_id c)) as [Heq|Hne].
      * rewrite (conv_id_inj _ d c (wf_conv_ids _ Hwf) Hd Hc Heq) in *.
        exists c'. split; [done|]. split; [done|].
        simpl. apply elem_of_app. by left.
      * exists d. split; [|done]. unfold replace_conversation.
        apply list_elem_of_fmap. exists d. by rewrite decide_False.
  - intros d [[-> _]|[Hd _]]%replace_conversation_elem; [|by apply Hn].
    simpl. apply NoDup_app. split; [by apply Hn|]. split.
    + intros k Hk ->%list_elem_of_singleton. by eapply Hfresh.
    + apply NoDup_singleton.
  - intros k m d. rewrite lookup_insert. case_decide as Hk.
    + intros [= <-] [[-> _]|[Hd Hne]]%replace_conversation_elem Hid;
        simpl in *; [done | by destruct Hne].
    + intros Hm' [[-> _]|[Hd Hne]]%replace_conversation_elem Hid.
      * simpl in *. by eapply Hm.
      * by eapply Hm.
  - intros k m. rewrite lookup_insert. case_decide as Hk.
    + intros [= <-]. simpl. by apply content_kept.
    + apply Hb.
Qed.

Lemma sendMessage_sound reg u r body now st :
  wf_store st → store_sound st →
  store_sound (sendMessage reg u r body now st).2.
Proof.
  intros Hwf Hs. destruct (content_missing body) eqn:Hb.
  - by rewrite sendMessage_rejects.
  - destruct body as [txt|]; [|done].
    rewrite sendMessage_accepts by done.
    destruct (find _ _) as [c|] eqn:Hfind.
    + apply find_elem in Hfind as [Hc [Hu Hr]%matches_all_pair].
      by apply send_into_sound.
    + pose proof (Conversation_create_wf [u; r] now st Hwf) as Hwf1.
      pose proof (Conversation_create_sound [u; r] now st Hwf Hs) as Hs1.
      rewrite Conversation_create_eq in *. cbn [snd] in Hwf1, Hs1.
      apply send_into_sound; try done.
      * simpl. apply elem_of_app. right. left.
      * left.
      * right. left.
Qed.

Lemma read_where_sound f st :
  store_sound st →
  store_sound {| userDocs := userDocs st;
                 conversationDocs := conversationDocs st;
                 messageDocs := read_where f <$> messageDocs st;
                 nextId := nextId st |}.
Proof.
  intros [Hl Ho Hn Hm Hb]. split; simpl; try done.
  - intros c k Hc Hk. rewrite lookup_fmap. apply fmap_is_Some. by eapply Hl.
  - intros k m (m0 & <- & Hm0)%lookup_fmap_Some.
    destruct (read_where_fields f m0) as (_ & _ & _ & _ & -> & _). eauto.
  - intros k m c (m0 & <- & Hm0)%lookup_fmap_Some Hc.
    destruct (read_where_fields f m0) as (_ & -> & -> & _ & -> & _). eauto.
  - intros k m (m0 & <- & Hm0)%lookup_fmap_Some.
    destruct (read_where_fields f m0) as (_ & _ & _ & -> & _). eauto.
Qed.

Lemma pull_from_elem_iff id mid cs d :
  d ∈ pull_from id mid cs
  ↔ ∃ d0, d0 ∈ cs
          ∧ d = if decide (conv_id d0 = id) then pull_message mid d0 else d0.
Proof.
  unfold pull_from. rewrite list_elem_of_fmap. split.
  - intros (d0 & -> & Hd0). by exists d0.
  - intros (d0 & Hd0 & ->). by exists d0.
Qed.

Lemma deleteMessage_sound u mid st :
  wf_store st → store_sound st → store_sound (deleteMessage u mid st).2.
Proof.
  intros Hwf Hs. rewrite deleteMessage_eq.
  destruct (messageDocs st !! mid) as [m|] eqn:Hmid; [|done].
  destruct (bool_decide _); [done|].
  destruct Hs as [Hl Ho Hn Hm Hb]. split; simpl.
  - intros d k (d0 & Hd0 & ->)%pull_from_elem_iff Hk.
    assert (k ∈ messages d0 ∧ k ≠ mid) as [Hk0 Hne].
    { destruct (decide (conv_id d0 = conversationId m)) as [Heq|Hneq].
      - simpl in Hk. apply list_elem_of_filter in Hk. tauto.
      - split; [done|]. intros ->. apply Hneq. symmetry.
        by apply (wf_listed_owner _ Hwf d0 mid m). }
    rewrite lookup_delete_ne by done. by eapply Hl.
  - intros k m' [Hne Hk]%lookup_delete_Some.
    destruct (Ho k m' Hk) as (d0 & Hd0 & Hid & Hin).
    eexists. split; [apply pull_from_elem_iff; by exists d0|].
    destruct (decide (conv_id d0 = conversationId m)); simpl;
      (split; [done|]); [|done].
    apply list_elem_of_filter. split; [by intros ->|done].
  - intros d (d0 & Hd0 & ->)%pull_from_elem_iff.
    destruct (decide _); simpl; [apply NoDup_filter|]; by apply Hn.
  - intros k m' d [Hne Hk]%lookup_delete_Some
      (d0 & Hd0 & ->)%pull_from_elem_iff Hid.
    destruct (decide _); simpl in *; by eapply Hm.
  - intros k m' [Hne Hk]%lookup_delete_Some. by eapply Hb.
Qed.

Lemma step_sound w e :
  wf_store (db w) → store_sound (db w) → store_sound (db (step w e).1).
Proof.
  intros Hwf Hs. destruct e as [v o|u r body now|u mid|u cid|s q|s t|s t|s];
    unfold step.
  - rewrite getMessages_eq. destruct (find _ _); [|done].
    by apply read_where_sound.
  - pose proof (sendMessage_sound (userSocketMap w) u r body now _ Hwf Hs).
    by destruct (sendMessage _ _ _ _ _ _) as [[? ?] ?].
  - pose proof (deleteMessage_sound u mid _ Hwf Hs).
    by destruct (deleteMessage _ _ _).
  - rewrite markRead_eq. by apply read_where_sound.
  - by destruct (on_connection _ _ _).
  - done.
  - done.
  - by destruct (on_disconnect _ _).
Qed.

Lemma run_sound w es :
  wf_store (db w) → store_sound (db w) → store_sound (db (run w es).1).
Proof.
  revert w. induction es as [|e es IH]; intros w Hwf Hs; simpl; [done|].
  pose proof (step_wf w e Hwf) as H1. pose proof (step_sound w e Hwf Hs) as H2.
  destruct (step w e) as [w1 o]. specialize (IH w1 H1 H2).
  by destruct (run w1 es).
Qed.

Lemma reachable_sound es : store_sound (db (run initial_world es).1).
Proof. apply run_sound; [apply wf_empty_store | apply sound_empty_store]. Qed.

(** The lists and the records of a sound store agree. *)
Lemma lists_agree_with_records st :
  wf_store st → store_sound st →
  (∀ c k, c ∈ conversationDocs st → k ∈ messages c →
          ∃ m, messageDocs st !! k = Some m ∧ msg_id m = k
               ∧ conversationId m = conv_id c)
  ∧ (∀ k m, messageDocs st !! k = Some m →
            ∃ c, c ∈ conversationDocs st ∧ conv_id c = conversationId m
                 ∧ k ∈ messages c)
  ∧ (∀ c, c ∈ conversationDocs st → NoDup (messages c))
  ∧ NoDup (conv_id <$> conversationDocs st).
Proof.
  intros Hwf Hs. split; [|split; [|split]].
  - intros c k Hc Hk. destruct (sound_listed _ Hs c k Hc Hk) as [m Hm].
    exists m. split; [done|]. split; [by eapply wf_msg_key|].
    by eapply wf_listed_owner.
  - apply Hs.
  - apply Hs.
  - apply Hwf.
Qed.

(** X15: in every store the routes can build from the empty database, the
    message lists and the message records agree: an id listed by a
    conversation is the id of a stored message that names this
    conversation, every stored message is listed by the conversation it
    names, no list holds an id twice and no two conversations share an
    id. *)
Theorem reachable_store_has_no_dangling_ids (es : list Event) :
  let st := db (run initial_world es).1 in
  (∀ c k, c ∈ conversationDocs st → k ∈ messages c →
          ∃ m, messageDocs st !! k = Some m ∧ msg_id m = k
               ∧ conversationId m = conv_id c)
  ∧ (∀ k m, messageDocs st !! k = Some m →
            ∃ c, c ∈ conversationDocs st ∧ conv_id c = conversationId m
                 ∧ k ∈ messages c)
  ∧ (∀ c, c ∈ conversationDocs st → NoDup (messages c))
  ∧ NoDup (conv_id <$> conversationDocs st).
Proof.
  intros st. apply lists_agree_with_records.
  - apply run_wf, wf_empty_store.
  - apply reachable_sound.
Qed.

Lemma thread_ids_complete st (ids : list ObjectId) :
  (∀ k, k ∈ ids → ∃ m, messageDocs st !! k = Some m ∧ msg_id m = k) →
  (λ pm, msg_id (doc pm))
  <$> omap (λ id, populate_message st <$> messageDocs st !! id) ids
  = ids.
Proof.
  induction ids as [|k ids IH]; [done|]. intros H.
  destruct (H k) as (m & Hm & Hid); [left|]. simpl. rewrite Hm. simpl.
  rewrite Hid. f_equal. apply IH. intros k' Hk'. apply H. by right.
Qed.

(** X16: on every store the routes can build from the empty database, the
    thread route answers one message per id of the conversation's message
    list, in the order of the list (the order of sending): nothing listed
    is missing from the answer and nothing is answered twice. *)
Theorem reachable_thread_is_the_message_list (es : list Event)
    (v o : UserId) :
  let w := (run initial_world es).1 in
  thread_ids (step w (GET_messages v o)).2
  = match find (matches_all [v; o]) (conversationDocs (db w)) with
    | Some c => messages c
    | None => []
    end
  ∧ NoDup (thread_ids (step w (GET_messages v o)).2).
Proof.
  intros w.
  destruct (lists_agree_with_records (db w)) as (Hl & _ & Hn & _);
    [apply run_wf, wf_empty_store | apply reachable_sound |].
  assert (thread_ids (step w (GET_messages v o)).2
          = match find (matches_all [v; o]) (conversationDocs (db w)) with
            | Some c => messages c
            | None => []
            end) as Heq.
  { unfold step. rewrite getMessages_eq.
    destruct (find _ _) as [c|] eqn:Hfind; [|done].
    unfold thread_ids; simpl. apply thread_ids_complete.
    intros k Hk. apply find_elem in Hfind as [Hc _].
    destruct (Hl c k Hc Hk) as (m & Hm & Hid & _). eauto. }
  split; [done|]. rewrite Heq.
  destruct (find _ _) as [c|] eqn:Hfind; [|apply NoDup_nil_2].
  apply Hn. by apply find_elem in Hfind as [? _].
Qed.

(** X17: every message the routes ever store has a text that is not empty
    and is its own trim: no stored text starts or ends with a white-space
    character (of ASCII or beyond), and none is made of white space only,
    whatever the clients sent. *)
Theorem reachable_texts_are_trimmed (es : list Event) (k : ObjectId)
    (m : Message) :
  messageDocs (db (run initial_world es).1) !! k = Some m →
  message m ≠ "" ∧ JS.trim (message m) = message m
  ∧ JS.trimStart (message m) = message m
  ∧ JS.trimEnd (message m) = message m
  ∧ (∀ w r, JS.is_white_space w = true →
            message m ≠ w +:+ r ∧ message m ≠ r +:+ w)
  ∧ ¬ JS.blank (message m).
Proof.
  intros Hm. destruct (sound_body _ (reachable_sound es) k m Hm) as [Hne Ht].
  destruct (trim_clean (message m)) as (Hs & He & Hstart & Hend).
  rewrite Ht in Hs, He, Hstart, Hend.
  split; [done|]. split; [done|]. split; [done|]. split; [done|].
  split; [intros w r Hw; split; auto|].
  intros Hb%trim_blank. by rewrite Ht in Hb.
Qed.

Lemma reachable_texts_are_trimmed_witness :
  let body := JS.utf8 0x3000 +:+ "  voilà " +:+ JS.utf8 0x2003 in
  let w := (run initial_world [POST_send alice bob (Some body) 3]).1 in
  (message <$> messageDocs (db w) !! 1) = Some "voilà"
  ∧ JS.trim "voilà" = "voilà".
Proof.
  intros body w. split; [by vm_compute|].
  refine (proj1 (proj2 (reachable_texts_are_trimmed
                          [POST_send alice bob (Some body) 3] 1
                          (sent_message alice bob body 0 1) _))).
  by vm_compute.
Defined.

(** X18: every message the routes ever store names a stored conversation
    that has both its sender and its receiver among the participants, and
    that conversation has exactly two participants. *)
Theorem reachable_messages_belong_to_their_participants (es : list Event)
    (k : ObjectId) (m : Message) :
  messageDocs (db (run initial_world es).1) !! k = Some m →
  ∃ c, c ∈ conversationDocs (db (run initial_world es).1)
       ∧ conv_id c = conversationId m
       ∧ k ∈ messages c
       ∧ senderId m ∈ participants c
       ∧ receiverId m ∈ participants c
       ∧ length (participants c) = 2%nat.
Proof.
  intros Hm. pose proof (reachable_sound es) as Hs.
  destruct (sound_owned _ Hs k m Hm) as (c & Hc & Hid & Hk).
  destruct (sound_members _ Hs k m c Hm Hc Hid) as [Hu Hr].
  exists c. do 5 (split; [done|]). by apply (reachable_direct_only es).
Qed.

Lemma reachable_messages_belong_to_their_participants_witness :
  ∃ c, c ∈ conversationDocs
             (db (run initial_world
                    [POST_send alice bob (Some "hi") 5;
                     POST_send alice alice (Some "note") 6]).1)
       ∧ conv_id c = 0 ∧ 2 ∈ messages c ∧ alice ∈ participants c.
Proof.
  destruct (reachable_messages_belong_to_their_participants
              [POST_send alice bob (Some "hi") 5;
               POST_send alice alice (Some "note") 6]
              2 (sent_message alice alice "note" 0 2))
    as (c & Hc & Hid & Hk & Hu & _); [by vm_compute|].
  exists c. by repeat split.
Defined.

(** ** Who can change what *)

Lemma read_where_change f (ms : gmap N Message) k m m' :
  ms !! k = Some m → (read_where f <$> ms) !! k = Some m' →
  m' = m ∨ (m' = mark_read m ∧ f m = true).
Proof.
  intros Hm. rewrite lookup_fmap, Hm. simpl. intros [= <-].
  unfold read_where. destruct (f m); [by right | by left].
Qed.

(** X19: no request changes the sender, the receiver, the text, the
    conversation or the kind of a stored message, and none sets [isRead]
    back to [false].  The one change a stored message undergoes is
    [isRead] going from [false] to [true], and only by a request of its
    receiver: the fetch of the thread with its sender, or the read route on
    its conversation. *)
Theorem messages_change_only_by_being_read (w : World) (e : Event)
    (k : ObjectId) (m m' : Message) :
  wf_store (db w) →
  messageDocs (db w) !! k = Some m →
  messageDocs (db (step w e).1) !! k = Some m' →
  m' = m
  ∨ (m' = mark_read m ∧ isRead m = false
     ∧ (e = GET_messages (receiverId m) (senderId m)
        ∨ e = PUT_read (receiverId m) (conversationId m))).
Proof.
  intros Hwf Hm.
  destruct e as [v o|u r body now|u mid|u cid|s q|s t|s t|s]; unfold step.
  - rewrite getMessages_eq. destruct (find _ _) as [c|];
      [|simpl; intros; left; congruence].
    simpl. intros [->|[-> Hf]]%(read_where_change _ _ _ m); [by left| |done].
    apply thread_unread_true in Hf as (_ & <- & <- & Hr). right. auto.
  - destruct (content_missing body) eqn:Hb.
    + rewrite sendMessage_rejects by done. simpl. intros. left. congruence.
    + destruct body as [txt|]; [|done].
      destruct (sendMessage_messages (userSocketMap w) u r txt now (db w) Hb)
        as (cid & mid & Hle & Hmsgs & _).
      destruct (sendMessage _ _ _ _ _ _) as [[res es] st']. simpl in *.
      rewrite Hmsgs, lookup_insert_ne.
      * intros. left. congruence.
      * apply (wf_msg_fresh _ Hwf) in Hm. lia.
  - rewrite deleteMessage_eq.
    destruct (messageDocs (db w) !! mid) as [m0|];
      [destruct (bool_decide _)|]; simpl;
      try (intros; left; congruence).
    intros [_ Hk]%lookup_delete_Some. left. congruence.
  - rewrite markRead_eq. simpl.
    intros [->|[-> Hf]]%(read_where_change _ _ _ m); [by left| |done].
    apply conversation_unread_true in Hf as (<- & <- & Hr). right. auto.
  - destruct (on_connection _ _ _). simpl. intros. left. congruence.
  - simpl. intros. left. congruence.
  - simpl. intros. left. congruence.
  - destruct (on_disconnect _ _). simpl. intros. left. congruence.
Qed.

Lemma messages_change_only_by_being_read_witness :
  let w := mkWorld store_alice_bob [] in
  let m := sent_message alice bob "hi" 0 1 in
  messageDocs (db (step w (GET_messages alice bob)).1) !! 1 = Some m
  ∧ messageDocs (db (step w (GET_messages bob alice)).1) !! 1
    = Some (mark_read m)
  ∧ (mark_read m = m
     ∨ mark_read m = mark_read m ∧ isRead m = false
       ∧ (GET_messages bob alice
          = GET_messages (receiverId m) (senderId m)
          ∨ GET_messages bob alice
            = PUT_read (receiverId m) (conversationId m))).
Proof.
  intros w m.
  assert (wf_store (db w)) as Hwf by apply sendMessage_wf, wf_empty_store.
  split; [by vm_compute|]. split; [by vm_compute|].
  apply (messages_change_only_by_being_read w (GET_messages bob alice) 1
           m (mark_read m) Hwf); by vm_compute.
Defined.

(** X20: a stored message disappears from the store only by the delete
    route called for that very message by its sender; and a message
    appears in the store only by the send route, unread, with the caller
    as sender and the trimmed body as text. *)
Theorem messages_come_and_go_by_their_sender (w : World) (e : Event)
    (k : ObjectId) (m : Message) :
  (messageDocs (db w) !! k = Some m →
   messageDocs (db (step w e).1) !! k = None →
   e = DELETE_message (senderId m) k)
  ∧ (messageDocs (db w) !! k = None →
     messageDocs (db (step w e).1) !! k = Some m →
     ∃ txt now, e = POST_send (senderId m) (receiverId m) (Some txt) now
                ∧ message m = JS.trim txt ∧ isRead m = false
                ∧ msg_id m = k).
Proof.
  destruct e as [v o|u r body now|u mid|u cid|s q|s t|s t|s]; unfold step.
  - rewrite getMessages_eq. destruct (find _ _) as [c|]; simpl;
      (split; intros H1 H2; [|exfalso]);
      rewrite ?lookup_fmap, H1 in H2; done.
  - destruct (content_missing body) eqn:Hb.
    + rewrite sendMessage_rejects by done. simpl.
      split; intros H1 H2; [|exfalso]; congruence.
    + destruct body as [txt|]; [|done].
      destruct (sendMessage_messages (userSocketMap w) u r txt now (db w) Hb)
        as (cid & mid & Hle & Hmsgs & _).
      destruct (sendMessage _ _ _ _ _ _) as [[res es] st'].
      cbn [fst snd db] in *. rewrite Hmsgs. split; intros H1.
      * rewrite lookup_insert. destruct (decide (mid = k));
          intros H2; [done|congruence].
      * rewrite lookup_insert. destruct (decide (mid = k)) as [Hk|Hk];
          [|intros; congruence].
        intros [= <-]. subst k. exists txt, now. done.
  - rewrite deleteMessage_eq.
    destruct (messageDocs (db w) !! mid) as [m0|] eqn:Hmid;
      [destruct (bool_decide (senderId m0 ≠ u)) eqn:Hs|]; simpl;
      (split; intros H1 H2; [|exfalso]); try congruence.
    + apply bool_decide_eq_false in Hs.
      apply lookup_delete_None in H2 as [->|H2]; [|congruence].
      assert (m0 = m) as -> by congruence.
      f_equal. symmetry. by destruct (decide (senderId m = u)).
    + apply lookup_delete_Some in H2 as [_ H2]. congruence.
  - rewrite markRead_eq. simpl.
    split; intros H1 H2; [|exfalso]; rewrite lookup_fmap, H1 in H2; done.
  - destruct (on_connection _ _ _). simpl.
    split; intros H1 H2; [|exfalso]; congruence.
  - simpl. split; intros H1 H2; [|exfalso]; congruence.
  - simpl. split; intros H1 H2; [|exfalso]; congruence.
  - destruct (on_disconnect _ _). simpl.
    split; intros H1 H2; [|exfalso]; congruence.
Qed.

Lemma messages_come_and_go_by_their_sender_witness :
  let w := mkWorld store_alice_bob [] in
  let m := sent_message alice bob "hi" 0 1 in
  messageDocs (db (step w (DELETE_message bob 1)).1) !! 1 = Some m
  ∧ messageDocs (db (step w (DELETE_message alice 1)).1) !! 1 = None
  ∧ DELETE_message alice 1 = DELETE_message (senderId m) 1.
Proof.
  intros w m. split; [by vm_compute|]. split; [by vm_compute|].
  apply (messages_come_and_go_by_their_sender w (DELETE_message alice 1)
           1 m); by vm_compute.
Defined.

(** ** Conversations stay *)

Lemma replace_conversation_keys c' cs :
  NoDup (conv_id <$> cs) →
  (∃ c, c ∈ cs ∧ conversation_key c' = conversation_key c) →
  conversation_key <$> replace_conversation c' cs = conversation_key <$> cs.
Proof.
  intros Hnd (c & Hc & Hkey). unfold replace_conversation.
  rewrite <- list_fmap_compose. apply list_fmap_ext.
  intros _ d Hd%list_elem_of_lookup_2.
  simpl. destruct (decide _) as [Heq|]; [|done].
  injection Hkey as Hid Hps.
  rewrite (conv_id_inj _ d c Hnd Hd Hc) by (by rewrite Heq).
  unfold conversation_key. by rewrite Hid, Hps.
Qed.

Lemma pull_from_keys id mid cs :
  conversation_key <$> pull_from id mid cs = conversation_key <$> cs.
Proof.
  unfold pull_from. rewrite <- list_fmap_compose.
  apply list_fmap_ext. intros _ d _; simpl. by destruct (decide _).
Qed.

Lemma step_keeps_conversations w e :
  wf_store (db w) →
  conversation_key <$> conversationDocs (db w)
  `prefix_of` conversation_key <$> conversationDocs (db (step w e).1).
Proof.
  intros Hwf.
  destruct e as [v o|u r body now|u mid|u cid|s q|s t|s t|s]; unfold step.
  - rewrite getMessages_eq. by destruct (find _ _).
  - destruct (content_missing body) eqn:Hb.
    + by rewrite sendMessage_rejects.
    + destruct body as [txt|]; [|done].
      destruct (sendMessage_resolved (userSocketMap w) u r txt now (db w)
                  Hwf Hb) as (c & st0 & -> & Hwf0 & Hfind & _ & _ & _ & Hd).
      apply find_elem in Hfind as [Hc _]. unfold send_into. simpl.
      rewrite replace_conversation_keys;
        [|apply Hwf0 | by exists c].
      destruct Hd as [-> | (-> & _)]; [done|].
      rewrite fmap_app. by apply prefix_app_r.
  - rewrite deleteMessage_eq. destruct (_ !! mid) as [m|]; [|done].
    destruct (bool_decide _); [done|]. simpl. by rewrite pull_from_keys.
  - by rewrite markRead_eq.
  - by destruct (on_connection _ _ _).
  - done.
  - done.
  - by destruct (on_disconnect _ _).
Qed.

Lemma serve_wf w q : wf_store (db w) → wf_store (db (serve w q)).
Proof.
  intros Hwf. destruct q as [e|u|u|u]; simpl; [by apply step_wf|done|done|].
  rewrite deleteAccount_eq. by destruct Hwf.
Qed.

Lemma serve_direct_only w q :
  direct_only (db w) → direct_only (db (serve w q)).
Proof.
  intros Hd. destruct q as [e|u|u|u]; simpl;
    [by apply step_direct_only|done|done|].
  by rewrite deleteAccount_eq.
Qed.

(** Whatever the user documents, the store invariant and the two
    participants of every conversation are kept by every request. *)
Lemma served_store_invariants w qs :
  wf_store (db w) → direct_only (db w) →
  wf_store (db (serve_all w qs)) ∧ direct_only (db (serve_all w qs)).
Proof.
  unfold serve_all. revert w.
  induction qs as [|q qs IH]; intros w Hwf Hd; simpl; [done|].
  apply IH; [by apply serve_wf | by apply serve_direct_only].
Qed.

Lemma serve_keeps_conversations w q :
  wf_store (db w) →
  conversation_key <$> conversationDocs (db w)
  `prefix_of` conversation_key <$> conversationDocs (db (serve w q)).
Proof.
  intros Hwf. destruct q as [e|u|u|u]; simpl;
    [by apply step_keeps_conversations|done|done|].
  by rewrite deleteAccount_eq.
Qed.

(** X21: no request removes a conversation, reorders the collection or
    changes the participants of a conversation, the deletion of an account
    included: whatever requests and socket events follow, the
    conversations stored now stay, in place and with their participants,
    and new ones are added after them. *)
Theorem conversations_are_never_removed (w : World) (qs : list Request) :
  wf_store (db w) →
  conversation_key <$> conversationDocs (db w)
  `prefix_of` conversation_key <$> conversationDocs (db (serve_all w qs)).
Proof.
  unfold serve_all. revert w.
  induction qs as [|q qs IH]; intros w Hwf; simpl; [done|].
  etrans; [by apply (serve_keeps_conversations w q)|].
  apply IH. by apply serve_wf.
Qed.

Lemma conversations_are_never_removed_witness :
  let w := mkWorld (with_users two_users store_alice_bob) [] in
  let qs := [event (DELETE_message alice 1); DELETE_account alice;
             event (POST_send carol alice (Some "hey") 8);
             GET_conversations bob; DELETE_account bob;
             event (DELETE_message carol 3); GET_stats_overview carol] in
  [(0, [alice; bob])]
  `prefix_of` conversation_key <$> conversationDocs (db (serve_all w qs))
  ∧ conversation_key <$> conversationDocs (db (serve_all w qs))
    = [(0, [alice; bob]); (2, [carol; alice])]
  ∧ userDocs (db (serve_all w qs)) = ∅.
Proof.
  intros w qs. split; [|by vm_compute].
  apply (conversations_are_never_removed w qs).
  assert (wf_store store_alice_bob) as Hwf
    by apply sendMessage_wf, wf_empty_store.
  by destruct Hwf.
Defined.

(** ** Reading, from both sides *)

(** X22: the read route covers the marking of the thread route: whatever
    the fetch of a thread marks read, the read route called by the same
    user for that conversation marks read too, and a fetch that follows the
    read route changes nothing in the store. *)
Theorem read_route_covers_the_fetch (st : Store) (v o : UserId)
    (c : Conversation) :
  find (matches_all [v; o]) (conversationDocs st) = Some c →
  (getMessages v o (markRead v (conv_id c) st).2).2
  = (markRead v (conv_id c) st).2
  ∧ ∀ k m, messageDocs st !! k = Some m → isRead m = false →
           messageDocs (getMessages v o st).2 !! k = Some (mark_read m) →
           messageDocs (markRead v (conv_id c) st).2 !! k
           = Some (mark_read m).
Proof.
  intros Hfind. rewrite markRead_eq. cbn [snd]. split.
  - rewrite getMessages_eq. cbn [conversationDocs]. rewrite Hfind.
    cbn [snd messageDocs userDocs conversationDocs nextId]. f_equal.
    rewrite <- map_fmap_compose. apply map_fmap_ext. intros k m _. simpl.
    assert (Hno : thread_unread (conv_id c) o v
                    (read_where (conversation_unread (conv_id c) v) m)
                  = false).
    { apply not_true_is_false. rewrite thread_unread_true.
      intros (H1 & _ & H2 & H3). unfold read_where in H1, H2, H3.
      destruct (conversation_unread (conv_id c) v m) eqn:Hf; [done|].
      apply not_true_iff_false in Hf. apply Hf.
      by apply conversation_unread_true. }
    unfold read_where at 1. by rewrite Hno.
  - intros k m Hm Hunread. rewrite getMessages_eq, Hfind. simpl.
    intros [Heq|[_ Hf]]%(read_where_change _ _ _ m); [| |done].
    + exfalso. apply (f_equal isRead) in Heq. simpl in Heq. congruence.
    + apply thread_unread_true in Hf as (H1 & _ & H2 & H3).
      destruct (read_where_lookup (conversation_unread (conv_id c) v)
                  _ _ _ Hm) as [Hyes _].
      apply Hyes. by apply conversation_unread_true.
Qed.

Lemma read_route_covers_the_fetch_witness :
  let st1 := (markRead bob 0 store_alice_bob).2 in
  (getMessages bob alice st1).2 = st1
  ∧ (isRead <$> messageDocs st1 !! 1) = Some true.
Proof.
  intros st1.
  destruct (read_route_covers_the_fetch store_alice_bob bob alice
              (with_new_message (new_conversation [alice; bob] 5 0) 1 5)
              eq_refl) as [H1 H2].
  split; [exact H1|].
  assert (H3 := H2 1 (sent_message alice bob "hi" 0 1)).
  unfold st1. change 0 with (conv_id
    (with_new_message (new_conversation [alice; bob] 5 0) 1 5)) at 1.
  rewrite H3; by vm_compute.
Defined.

(** X23: the two users of a thread are answered the same thread: the
    fetch by [v] of the thread with [o] and the fetch by [o] of the thread
    with [v], on the same store, give the same answer, and leave the same
    conversations behind. *)
Theorem both_sides_see_the_same_thread (st : Store) (v o : UserId) :
  (getMessages v o st).1 = (getMessages o v st).1
  ∧ conversationDocs (getMessages v o st).2
    = conversationDocs (getMessages o v st).2
  ∧ dom (messageDocs (getMessages v o st).2)
    = dom (messageDocs (getMessages o v st).2).
Proof.
  rewrite !getMessages_eq, (find_matches_all_swap o v).
  destruct (find _ _) as [c|]; [|done]. simpl.
  split; [done|]. split; [done|]. by rewrite !dom_fmap_L.
Qed.
